(** * pgmlink: merger resolution helpers (track_features_auxiliary.h)

    A shallow embedding of the header-defined parts of the merger
    resolution engine: the conversion of a flat feature array to a
    column-major matrix, the computation of cluster centers from label
    assignments, the construction of [MergerResolver] and the arc
    collection helper.  The member functions whose bodies live outside
    the header are modelled from the design document and are marked as
    such. *)

From Stdlib Require Import ZArith QArith Lia.
From stdpp Require Import base decidable countable gmap list strings.

Local Open Scope Z_scope.
Local Open Scope list_scope.

(** ** Outcomes of a C++ call *)

(** The exceptions the header raises, plus the ones raised by the
    standard library and by armadillo's argument checks. *)
Inductive exn : Type :=
  | range_error (what : string)
  | runtime_error (what : string)
  | invalid_argument
  | length_error
  | logic_error.

(** Places where an index can leave its container. *)
Inductive container : Type :=
  | in_source_vector
  | in_matrix_column
  | in_labels
  | in_clusterSize
  | in_centers
  | in_nodes.

(** A call returns, throws, indexes outside a container (which the
    C++ code does not check itself), stops at a failed [assert], or
    overflows a signed [int] product (undefined in C++). *)
Inductive outcome (A : Type) : Type :=
  | Ok (a : A)
  | Throw (e : exn)
  | OutOfBounds (c : container)
  | AssertionFailed
  | SignedOverflow.
Arguments Ok {A} a.
Arguments Throw {A} e.
Arguments OutOfBounds {A} c.
Arguments AssertionFailed {A}.
Arguments SignedOverflow {A}.

Definition outcome_bind {A B} (f : A → outcome B) (o : outcome A) : outcome B :=
  match o with
  | Ok a => f a
  | Throw e => Throw e
  | OutOfBounds c => OutOfBounds c
  | AssertionFailed => AssertionFailed
  | SignedOverflow => SignedOverflow
  end.

#[export] Instance outcome_ret : MRet outcome := λ A a, Ok a.
#[export] Instance outcome_mbind : MBind outcome := λ A B f o, outcome_bind f o.

Definition is_ok {A} (o : outcome A) : bool :=
  match o with Ok _ => true | _ => false end.


(** ** Machine integers *)

(** [int] is a 32-bit two's complement integer; [to_int] is the
    narrowing conversion to it. *)
Definition int_min : Z := - 2 ^ 31.
Definition int_max : Z := 2 ^ 31 - 1.
Definition to_int (z : Z) : Z := (z + 2 ^ 31) mod 2 ^ 32 - 2 ^ 31.

Definition fits_int (z : Z) : Prop := int_min ≤ z ≤ int_max.

(** ** Element types of vectors and matrices *)

(** The header's templates are generic in the element type; they use
    zero, addition, division, and the conversion of an [int] count.
    An instance is an element type whose division is total, as it is
    for the floating-point types ([arma::mat] holds [double]); an
    integral element type, for which a division by zero is undefined,
    is not an instance. *)
Class Elem (T : Type) : Type := {
  e_zero : T;
  e_add : T → T → T;
  e_div : T → T → T;
  e_of_int : Z → T
}.

(** [double] with IEEE 754 special values.  Finite values are kept
    exact: sums and quotients neither round nor overflow to an
    infinity, so this instance stands for [double] only where a result
    does not depend on the finite values computed (a zero divided by a
    zero count is NaN in both) or where the values are small and
    exactly representable, as in the worked runs. *)
Inductive double : Type :=
  | Fin (q : Q)
  | PInf
  | NInf
  | NaN.

Definition double_add (a b : double) : double :=
  match a, b with
  | NaN, _ | _, NaN => NaN
  | PInf, NInf | NInf, PInf => NaN
  | PInf, _ | _, PInf => PInf
  | NInf, _ | _, NInf => NInf
  | Fin x, Fin y => Fin (Qred (x + y))
  end.

Definition double_div (a b : double) : double :=
  match a, b with
  | NaN, _ | _, NaN => NaN
  | Fin x, Fin y =>
      if Qeq_bool y 0 then
        if Qeq_bool x 0 then NaN
        else if Qle_bool 0 x then PInf else NInf
      else Fin (Qred (x / y))
  | Fin _, _ => Fin 0
  | PInf, Fin y => if Qle_bool 0 y then PInf else NInf
  | NInf, Fin y => if Qle_bool 0 y then NInf else PInf
  | _, _ => NaN
  end.

#[export] Instance double_Elem : Elem double := {
  e_zero := Fin 0;
  e_add := double_add;
  e_div := double_div;
  e_of_int := λ z, Fin (inject_Z z)
}.

(** ** arma::Mat *)

(** A matrix is stored column-major; [cols] lists its columns. *)
Record Mat (T : Type) : Type := mkMat {
  n_rows : nat;
  cols : list (list T)
}.
Arguments mkMat {T} n_rows cols.
Arguments n_rows {T} m.
Arguments cols {T} m.

Definition n_cols {T} (m : Mat T) : nat := length (cols m).

(** Every column of an armadillo matrix has [n_rows] entries. *)
Definition Mat_wf {T} (m : Mat T) : Prop :=
  Forall (λ c, length c = n_rows m) (cols m).

(** [m.col(j) = c] *)
Definition set_col {T} (m : Mat T) (j : nat) (c : list T) : Mat T :=
  mkMat (n_rows m) (<[j := c]> (cols m)).

(** ** feature_array_to_arma_mat *)

Section feature_array_to_arma_mat.
Context {T U : Type} (conv : T → U).

(** The [while (count < n)] loop; [todo] is the number of iterations
    still to run, [n - count].  Armadillo rejects a column of negative
    size and the assignment of a column of the wrong height. *)
Fixpoint copy_columns (todo : nat) (inp : list T) (stepSize : Z)
    (count srcIt : nat) (out : Mat U) : outcome (Mat U) :=
  match todo with
  | O => Ok out
  | S todo' =>
      if stepSize <? 0 then Throw logic_error
      else
        let step := Z.to_nat stepSize in
        if negb (srcIt + step <=? length inp)%nat then OutOfBounds in_source_vector
        else
          let col := conv <$> take step (drop srcIt inp) in
          if negb (count <? n_cols out)%nat then OutOfBounds in_matrix_column
          else if negb (length col =? n_rows out)%nat then Throw logic_error
          else copy_columns todo' inp stepSize (S count) (srcIt + step)%nat
                 (set_col out count col)
  end.

(** The sizes are narrowed to [int] (modulo 2^32); the product
    [stepSize*n] is a signed multiplication, undefined when it leaves
    the range of [int]. *)
Definition feature_array_to_arma_mat (inp : list T) (out : Mat U) : outcome (Mat U) :=
  let stepSize := to_int (Z.of_nat (n_rows out)) in
  let n := to_int (Z.of_nat (n_cols out)) in
  if negb ((int_min <=? stepSize * n) && (stepSize * n <=? int_max)) then SignedOverflow
  else if negb (stepSize * n =? to_int (Z.of_nat (length inp))) then
    Throw (range_error "Source vector dimension and matrix dimensions do not agree!")
  else copy_columns (Z.to_nat n) inp stepSize 0 0 out.
End feature_array_to_arma_mat.

(** ** get_centers *)

Section get_centers.
Context {T : Type} `{Elem T}.

(** [centers.zeros()] *)
Definition zeros (m : Mat T) : Mat T :=
  mkMat (n_rows m) ((λ c : list T, (λ _ : T, e_zero) <$> c) <$> cols m).

(** Sum of two columns. *)
Definition col_add (a b : list T) : list T := zip_with e_add a b.

(** [col /= s] *)
Definition col_div (a : list T) (s : Z) : list T :=
  (λ x : T, e_div x (e_of_int s)) <$> a.

(** First loop: one iteration per data column, the label iterator
    advancing in step. *)
Fixpoint accumulate (dcols : list (list T)) (labelIt : list nat)
    (clusterSize : list Z) (centers : Mat T) : outcome (list Z * Mat T) :=
  match dcols with
  | [] => Ok (clusterSize, centers)
  | d :: dcols' =>
      match labelIt with
      | [] => OutOfBounds in_labels
      | l :: labelIt' =>
          match clusterSize !! l with
          | None => OutOfBounds in_clusterSize
          | Some s =>
              let clusterSize' := <[l := to_int (s + 1)]> clusterSize in
              match cols centers !! l with
              | None => OutOfBounds in_centers
              | Some c =>
                  if negb (length c =? length d)%nat then Throw logic_error
                  else accumulate dcols' labelIt' clusterSize'
                         (set_col centers l (col_add c d))
              end
          end
      end
  end.

(** Second loop: [for (int i = 0; i < k; ++i)], over the indices
    still to visit. *)
Fixpoint normalize (idx : list nat) (clusterSize : list Z) (centers : Mat T)
    : outcome (Mat T) :=
  match idx with
  | [] => Ok centers
  | i :: idx' =>
      match clusterSize !! i with
      | None => OutOfBounds in_clusterSize
      | Some s =>
          match cols centers !! i with
          | None => OutOfBounds in_centers
          | Some c => normalize idx' clusterSize (set_col centers i (col_div c s))
          end
      end
  end.

Definition get_centers (data : Mat T) (labels : list nat) (centers : Mat T)
    (k : Z) : outcome (Mat T) :=
  if k <? 0 then Throw length_error
  else
    match accumulate (cols data) labels (replicate (Z.to_nat k) 0) (zeros centers) with
    | Ok (clusterSize, centers') => normalize (seq 0 (Z.to_nat k)) clusterSize centers'
    | Throw e => Throw e
    | OutOfBounds c => OutOfBounds c
    | AssertionFailed => AssertionFailed
    | SignedOverflow => SignedOverflow
    end.
End get_centers.


(** ** KMeans *)

Section KMeans.
(** The clustering routine of the external library: it assigns a label
    to every data column. *)
Context (Cluster : Mat double → Z → list nat).

(** Modelled from the spec: the body of [KMeans::operator()] is not part
    of the header.  The flat sample array holds [dim] coordinates per
    sample; it is converted to a [dim] x [count] matrix with
    [feature_array_to_arma_mat], rejected when [k] exceeds the number of
    samples, clustered, and the centers computed by [get_centers] are
    returned as a flat array of [k] centers. *)
Definition KMeans (dim : nat) (k_ : Z) (data_ : list double) : outcome (list double) :=
  let n := (length data_ / dim)%nat in
  data ← feature_array_to_arma_mat id data_ (mkMat dim (replicate n (replicate dim e_zero)));
  if Z.of_nat n <? k_ then Throw invalid_argument
  else
    centers ← get_centers data (Cluster data k_)
                (mkMat dim (replicate (Z.to_nat k_) (replicate dim e_zero))) k_;
    mret (concat (cols centers)).
End KMeans.

(** The arithmetic mean of a list of values, summed in order. *)
Definition arithmetic_mean {T} `{Elem T} (xs : list T) : T :=
  e_div (foldl e_add e_zero xs) (e_of_int (Z.of_nat (length xs))).

(** Row [i] of a matrix: coordinate [i] of every sample. *)
Definition row {T} `{Elem T} (m : Mat T) (i : nat) : list T :=
  (λ c : list T, default e_zero (c !! i)) <$> cols m.

(** The mean of the columns of a matrix, coordinate by coordinate. *)
Definition mean_column {T} `{Elem T} (m : Mat T) : list T :=
  (λ i : nat, arithmetic_mean (row m i)) <$> seq 0 (n_rows m).

(** ** The hypotheses graph *)

(** Property tags a graph can carry. *)
Inductive property : Type :=
  | node_traxel
  | node_active2
  | arc_active
  | arc_distance
  | merger_resolved_to
  | node_originated_from.

#[export] Instance property_eq_dec : EqDecision property.
Proof. solve_decision. Defined.

Definition property_to_nat (p : property) : nat :=
  match p with
  | node_traxel => 0
  | node_active2 => 1
  | arc_active => 2
  | arc_distance => 3
  | merger_resolved_to => 4
  | node_originated_from => 5
  end%nat.

Definition property_of_nat (n : nat) : property :=
  match n with
  | 0 => node_traxel
  | 1 => node_active2
  | 2 => arc_active
  | 3 => arc_distance
  | 4 => merger_resolved_to
  | _ => node_originated_from
  end%nat.

#[export] Instance property_countable : Countable property.
Proof.
  refine (inj_countable' property_to_nat property_of_nat _).
  intros []; reflexivity.
Defined.

(** Modelled from the spec: [Traxel] is declared in pgmlink/traxels.h,
    which is not part of the sources.  An object record holds its
    identifier, its time index and its named feature channels. *)
Record Traxel : Type := mkTraxel {
  Id : nat;
  Timestep : Z;
  features : list (string * list double)
}.

(** Modelled from the spec: per-node data of the graph: the object bound
    to the node, the active flag, the merger count, and the two
    provenance entries. *)
Record node_data : Type := mkNode {
  traxel : Traxel;
  active : bool;
  count : nat;
  originated_from : option nat;
  resolved_to : list nat
}.

(** Modelled from the spec: per-arc data: end points (node indices), the
    active flag and the weight. *)
Record arc_data : Type := mkArc {
  source : nat;
  target : nat;
  is_active : bool;
  distance : Q
}.

(** Modelled from the spec: [HypothesesGraph] is declared in
    pgmlink/hypotheses.h, which is not part of the sources.  Nodes and
    arcs live in arenas and are named by their index; elements are
    created but never removed. *)
Record HypothesesGraph : Type := mkGraph {
  properties : gset property;
  nodes : list node_data;
  arcs : list arc_data
}.

(** Modelled from the spec: [HypothesesGraph::has_property] and
    [HypothesesGraph::add] belong to pgmlink/hypotheses.h: a graph
    carries a set of typed attachments named by their tag; [add]
    attaches one more. *)
Definition has_property (g : HypothesesGraph) (p : property) : bool :=
  bool_decide (p ∈ properties g).

Definition add (g : HypothesesGraph) (p : property) : HypothesesGraph :=
  mkGraph ({[p]} ∪ properties g) (nodes g) (arcs g).

(** ** MergerResolver: construction *)

(** A graph pointer is null or points to the graph held in the store. *)
Inductive graph_ptr : Type :=
  | null
  | the_graph.

Record MergerResolver : Type := mkMergerResolver { g_ : graph_ptr }.

(** Computations that read and update the graph in the store and may
    throw; the store is kept when they throw. *)
Definition GraphM (A : Type) : Type := HypothesesGraph → HypothesesGraph * outcome A.

#[export] Instance GraphM_ret : MRet GraphM := λ A a g, (g, Ok a).
#[export] Instance GraphM_bind : MBind GraphM := λ A B f m g,
  match m g with
  | (g', Ok a) => f a g'
  | (g', Throw e) => (g', Throw e)
  | (g', OutOfBounds c) => (g', OutOfBounds c)
  | (g', AssertionFailed) => (g', AssertionFailed)
  | (g', SignedOverflow) => (g', SignedOverflow)
  end.

(** [throw], the two graph operations the constructor calls, and
    [if (b) stmt;]. *)
Definition throw {A} (e : exn) : GraphM A := λ g, (g, Throw e).
Definition graph_has_property (p : property) : GraphM bool := λ g, (g, Ok (has_property g p)).
Definition graph_add (p : property) : GraphM unit := λ g, (add g p, Ok tt).
Definition when (b : bool) (m : GraphM unit) : GraphM unit := if b then m else mret tt.

(** The constructor [MergerResolver(HypothesesGraph* g)]. *)
Definition MergerResolver_new (g : graph_ptr) : GraphM MergerResolver :=
  match g with
  | null => throw (runtime_error "HypotesesGraph g_ is a null pointer!")
  | the_graph =>
      b1 ← graph_has_property merger_resolved_to;
      when (negb b1) (graph_add merger_resolved_to);;
      b2 ← graph_has_property node_active2;
      when (negb b2) (throw (runtime_error "HypothesesGraph g_ does not have property node_active2!"));;
      b3 ← graph_has_property arc_active;
      when (negb b3) (throw (runtime_error "HypothesesGraph g_ does not have property arc_active!"));;
      b4 ← graph_has_property arc_distance;
      when (negb b4) (throw (runtime_error "HypothesesGraph g_ does not have property arc_distance!"));;
      b5 ← graph_has_property node_originated_from;
      when (negb b5) (graph_add node_originated_from);;
      mret (mkMergerResolver g)
  end.

(** ** MergerResolver::collect_arcs *)

Section collect_arcs.
(** An arc iterator is the list of arcs it still yields; [lemon::INVALID]
    is the empty list. *)
Context {Arc : Type}.

(** The [for (; arcIt != lemon::INVALID; ++arcIt)] loop. *)
Fixpoint collect_loop (arcIt : list Arc) (res : list Arc) : list Arc :=
  match arcIt with
  | [] => res
  | a :: arcIt' => collect_loop arcIt' (res ++ [a])
  end.

(** [collect_arcs(arcIt, res)]: the [assert] is taken as compiled in. *)
Definition collect_arcs (arcIt : list Arc) (res : list Arc) : outcome (list Arc) :=
  if negb (length res =? 0)%nat then AssertionFailed
  else Ok (collect_loop arcIt res).
End collect_arcs.

(** ** Graph inspection and mutation primitives *)

(** The two directions in which a node has arcs. *)
Inductive direction : Type :=
  | Incoming
  | Outgoing.

(** The end point at which an arc counts for a direction: an arc is an
    incoming arc of its target and an outgoing arc of its source. *)
Definition endpoint (d : direction) (a : arc_data) : nat :=
  match d with
  | Incoming => target a
  | Outgoing => source a
  end.

(** Arcs and nodes in creation order. *)
Definition arc_ids (g : HypothesesGraph) : list nat := seq 0 (length (arcs g)).

Definition node_ids (g : HypothesesGraph) : list nat := seq 0 (length (nodes g)).

(** Arc [i] is active and counts for node [v] in direction [d]. *)
Definition active_at (g : HypothesesGraph) (d : direction) (v : nat) (i : nat) : bool :=
  match arcs g !! i with
  | Some a => is_active a && bool_decide (endpoint d a = v)
  | None => false
  end.

(** Modelled from the spec: the active arcs of node [v] in direction
    [d], in arc creation order (what an arc iterator over the active
    subgraph yields). *)
Definition active_arcs (g : HypothesesGraph) (d : direction) (v : nat) : list nat :=
  filter (λ i, active_at g d v i = true) (arc_ids g).

(** Modelled from the spec: the arc weight, a numeric distance score;
    it is kept exact here. *)
Definition weight (g : HypothesesGraph) (i : nat) : Q :=
  match arcs g !! i with
  | Some a => distance a
  | None => 0%Q
  end.

(** Deactivation clears the active flag and nothing else. *)
Definition deactivate_arc (a : arc_data) : arc_data :=
  mkArc (source a) (target a) false (distance a).

Definition deactivate_node (n : node_data) : node_data :=
  mkNode (traxel n) false (count n) (originated_from n) (resolved_to n).

(** Modelled from the spec: [MergerResolver::deactivate_arcs] clears the
    active flag of the given arcs; the arcs stay in the graph. *)
Definition deactivate_arcs (g : HypothesesGraph) (ids : list nat) : HypothesesGraph :=
  mkGraph (properties g) (nodes g)
    (foldl (λ (l : list arc_data) (i : nat), alter deactivate_arc i l) (arcs g) ids).

(** Modelled from the spec: [MergerResolver::deactivate_nodes] clears the
    active flag of the given nodes; the nodes stay in the graph. *)
Definition deactivate_nodes (g : HypothesesGraph) (ids : list nat) : HypothesesGraph :=
  mkGraph (properties g)
    (foldl (λ (l : list node_data) (i : nat), alter deactivate_node i l) (nodes g) ids)
    (arcs g).

(** ** Ambiguous-arc resolvers *)

(** The first element of [best :: rest] of least cost: a later element
    replaces the current best only when it is strictly cheaper, so ties
    go to the earlier one. *)
Fixpoint argmin {A} (cost : A → Q) (best : A) (rest : list A) : A :=
  match rest with
  | [] => best
  | x :: rest' =>
      if Qle_bool (cost best) (cost x) then argmin cost best rest'
      else argmin cost x rest'
  end.

(** Modelled from the spec: one step of the greedy resolver.  When node
    [v] has more than one active arc in direction [d], the arc of
    minimum weight is kept (the earliest created one among equals) and
    the others are deactivated. *)
Definition resolve_direction (d : direction) (g : HypothesesGraph) (v : nat) : HypothesesGraph :=
  match active_arcs g d v with
  | first :: (_ :: _) as rest =>
      let kept := argmin (weight g) first rest in
      deactivate_arcs g (filter (λ i, i ≠ kept) (first :: rest))
  | _ => g
  end.

(** Modelled from the spec: the greedy resolver at one node: first the
    incoming, then the outgoing direction. *)
Definition greedy_visit (g : HypothesesGraph) (v : nat) : HypothesesGraph :=
  resolve_direction Outgoing (resolve_direction Incoming g v) v.

(** Modelled from the spec: [ResolveAmbiguousArcsGreedy::operator()] is
    declared in the header without a body.  Every node is visited, in
    creation order. *)
Definition ResolveAmbiguousArcsGreedy (g : HypothesesGraph) : HypothesesGraph :=
  foldl greedy_visit g (node_ids g).

(** All selections of arcs out of a list of candidates. *)
Fixpoint selections (cands : list nat) : list (list nat) :=
  match cands with
  | [] => [[]]
  | i :: cands' => selections cands' ++ (cons i <$> selections cands')
  end.

(** The end points of the selected arcs in one direction. *)
Definition endpoints (g : HypothesesGraph) (d : direction) (sel : list nat) : list (option nat) :=
  (λ i : nat, endpoint d <$> arcs g !! i) <$> sel.

(** At most one selected arc per node and direction. *)
Definition max_one_arc (g : HypothesesGraph) (sel : list nat) : Prop :=
  NoDup (endpoints g Incoming sel) ∧ NoDup (endpoints g Outgoing sel).

#[export] Instance max_one_arc_dec g sel : Decision (max_one_arc g sel).
Proof. unfold max_one_arc. apply _. Defined.

(** Cost of a selection: the sum of the weights of its arcs. *)
Definition selection_cost (g : HypothesesGraph) (sel : list nat) : Q :=
  foldr (λ i acc, Qplus (weight g i) acc) 0%Q sel.

(** Modelled from the spec: [ReasonerMaxOneArc::formulate]: the
    variables are the currently active arcs; the admissible assignments
    are the selections with at most one arc per node and direction. *)
Definition formulate (g : HypothesesGraph) : list (list nat) :=
  filter (max_one_arc g)
    (selections (filter (λ i, (is_active <$> arcs g !! i) = Some true) (arc_ids g))).

(** Modelled from the spec: [ReasonerMaxOneArc::infer]: exact inference,
    an admissible selection of least energy.  The spec builds the energy
    from the arc weights without fixing its exact form, so it is a
    parameter; [selection_cost] is the plain sum of weights. *)
Definition infer (energy : list nat → Q) (model : list (list nat)) : list nat :=
  match model with
  | [] => []
  | sel :: others => argmin energy sel others
  end.

(** Modelled from the spec: [ReasonerMaxOneArc::conclude] writes the
    selection back: selected arcs are active, all others inactive. *)
Definition conclude (g : HypothesesGraph) (sel : list nat) : HypothesesGraph :=
  mkGraph (properties g) (nodes g)
    (imap (λ i a, mkArc (source a) (target a) (bool_decide (i ∈ sel)) (distance a)) (arcs g)).

(** Modelled from the spec: [ResolveAmbiguousArcsPgm::operator()] is
    declared in the header without a body. *)
Definition ResolveAmbiguousArcsPgm (energy : HypothesesGraph → list nat → Q)
    (g : HypothesesGraph) : HypothesesGraph :=
  conclude g (infer (energy g) (formulate g)).

(** The two implementations of [ResolveAmbiguousArcsBase], and the call
    of one through the base class. *)
Inductive ResolveAmbiguousArcsBase : Type :=
  | Greedy
  | Pgm (energy : HypothesesGraph → list nat → Q).

Definition resolve_ambiguous_arcs (r : ResolveAmbiguousArcsBase) : HypothesesGraph → HypothesesGraph :=
  match r with
  | Greedy => ResolveAmbiguousArcsGreedy
  | Pgm energy => ResolveAmbiguousArcsPgm energy
  end.

(** ** MergerResolver: resolution *)

Section resolve_mergers.
(** [FeatureExtractorBase::operator()]: the sub-objects of a merger, or
    nothing when the object lacks the feature the extractor needs. *)
Context (extractor : Traxel → nat → nat → option (list Traxel)).
(** [DistanceBase::operator()]. *)
Context (distance_of : Traxel → Traxel → Q).

(** Modelled from the spec: [MergerResolver::get_max_id]: the highest
    identifier among all nodes of a time index, active or not. *)
Definition get_max_id (g : HypothesesGraph) (ts : Z) : nat :=
  foldr Nat.max 0%nat
    (Id <$> filter (λ t, Timestep t = ts) (traxel <$> nodes g)).

(** Modelled from the spec: creation of a node and of an active arc;
    new elements are appended to the arenas. *)
Definition add_node (g : HypothesesGraph) (n : node_data) : HypothesesGraph :=
  mkGraph (properties g) (nodes g ++ [n]) (arcs g).

Definition add_arc (g : HypothesesGraph) (src tgt : nat) (w : Q) : HypothesesGraph :=
  mkGraph (properties g) (nodes g) (arcs g ++ [mkArc src tgt true w]).

(** The object bound to a node. *)
Definition traxel_of (g : HypothesesGraph) (v : nat) (dflt : Traxel) : Traxel :=
  match nodes g !! v with
  | Some n => traxel n
  | None => dflt
  end.

(** Modelled from the spec: [MergerResolver::add_arcs_for_replacement_node]:
    for every collected incoming arc of the merger a new active arc from
    that arc's source to the new node, for every collected outgoing arc a
    new active arc from the new node to that arc's target, weighted by
    the distance strategy. *)
Definition add_arcs_for_replacement_node (g : HypothesesGraph) (node : nat)
    (trax : Traxel) (src dest : list nat) : HypothesesGraph :=
  let g1 :=
    foldl (λ g a,
      match arcs g !! a with
      | Some ad => add_arc g (source ad) node (distance_of (traxel_of g (source ad) trax) trax)
      | None => g
      end) g src in
  foldl (λ g a,
    match arcs g !! a with
    | Some ad => add_arc g node (target ad) (distance_of trax (traxel_of g (target ad) trax))
    | None => g
    end) g1 dest.

(** Modelled from the spec (step 4): the new node of a sub-object of
    the merger with identifier [from]: active, merger count 1,
    originated from [from]. *)
Definition replacement_node (from : nat) (trax : Traxel) : node_data :=
  mkNode trax true 1 (Some from) [].

(** Modelled from the spec (step 6): the resolved-to entry of a merger. *)
Definition set_resolved_to (ids : list nat) (n : node_data) : node_data :=
  mkNode (traxel n) (active n) (count n) (originated_from n) ids.

(** Modelled from the spec: [MergerResolver::refine_node]: steps 2 to 6
    of the resolution of one merger node. *)
Definition refine_node (g : HypothesesGraph) (node : nat) (nMerger : nat)
    : outcome HypothesesGraph :=
  match nodes g !! node with
  | None => OutOfBounds in_nodes
  | Some n =>
      let trax := traxel n in
      src ← collect_arcs (active_arcs g Incoming node) [];
      dest ← collect_arcs (active_arcs g Outgoing node) [];
      let max_id := get_max_id g (Timestep trax) in
      match extractor trax nMerger max_id with
      | None => Throw (runtime_error "feature missing in traxel")
      | Some subs =>
          let g1 :=
            foldl (λ g t,
              add_arcs_for_replacement_node (add_node g (replacement_node (Id trax) t))
                (length (nodes g)) t src dest) g subs in
          let g2 := deactivate_arcs g1 (src ++ dest) in
          let g3 := deactivate_nodes g2 [node] in
          Ok (mkGraph (properties g3)
                (alter (set_resolved_to (Id <$> subs)) node (nodes g3)) (arcs g3))
      end
  end.

(** Modelled from the spec (step 1): the active nodes with merger count
    at least two, enumerated before any of them is expanded. *)
Definition is_merger (g : HypothesesGraph) (v : nat) : bool :=
  match nodes g !! v with
  | Some n => active n && (2 <=? count n)%nat
  | None => false
  end.

Definition merger_nodes (g : HypothesesGraph) : list nat :=
  filter (λ v, is_merger g v = true) (node_ids g).

(** Modelled from the spec: the mergers are expanded one after the
    other, each on the graph left by the previous one; a failing
    extractor aborts the whole call. *)
Fixpoint refine_all (g : HypothesesGraph) (mergers : list nat) : outcome HypothesesGraph :=
  match mergers with
  | [] => Ok g
  | v :: mergers' =>
      match nodes g !! v with
      | Some n => g' ← refine_node g v (count n); refine_all g' mergers'
      | None => OutOfBounds in_nodes
      end
  end.

(** Modelled from the spec: [MergerResolver::resolve_mergers] is declared
    in the header without a body.  All mergers are expanded, then the
    ambiguous-arc resolver runs over the whole graph. *)
Definition resolve_mergers (r : ResolveAmbiguousArcsBase) (g : HypothesesGraph)
    : outcome HypothesesGraph :=
  g' ← refine_all g (merger_nodes g);
  mret (resolve_ambiguous_arcs r g').
End resolve_mergers.

(** ** Vocabulary of the properties, and worked inputs *)

(** The graph has the three attachments the constructor insists on. *)
Definition required (g : HypothesesGraph) : bool :=
  has_property g node_active2 && has_property g arc_active && has_property g arc_distance.

(** The graph left in the store by the constructor's first step. *)
Definition with_resolved_to (g : HypothesesGraph) : HypothesesGraph :=
  if has_property g merger_resolved_to then g else add g merger_resolved_to.

(** The graph after the constructor's last step. *)
Definition with_originated_from (g : HypothesesGraph) : HypothesesGraph :=
  if has_property g node_originated_from then g else add g node_originated_from.

(** A graph that carries no attachment at all. *)
Definition bare_graph : HypothesesGraph := mkGraph ∅ [] [].

(** The labels the first loop reads, and the bounds they must respect. *)
Definition labels_in_range (n : nat) (labels : list nat) (k : Z) : Prop :=
  (n ≤ length labels)%nat ∧ Forall (λ l, Z.of_nat l < k) (take n labels).



(** The four samples (0,0), (0,2), (4,0), (4,2). *)
Definition four_samples : Mat double :=
  mkMat 2 [[Fin 0; Fin 0]; [Fin 0; Fin 2]; [Fin 4; Fin 0]; [Fin 4; Fin 2]].

(** What [FeatureExtractorBase] promises: as many sub-objects as asked
    for, at the time index of the merger. *)
Definition extractor_contract (extractor : Traxel → nat → nat → option (list Traxel)) : Prop :=
  ∀ trax nMerger max_id subs,
    extractor trax nMerger max_id = Some subs →
    length subs = nMerger ∧ Forall (λ t, Timestep t = Timestep trax) subs.

(** Time index and identifier of the object bound to a node. *)
Definition node_key (g : HypothesesGraph) (v : nat) : option (Z * nat) :=
  (λ n, (Timestep (traxel n), Id (traxel n))) <$> nodes g !! v.

(** Identifiers are unique within a time index, among the mergers. *)
Definition unique_merger_ids (g : HypothesesGraph) : Prop :=
  ∀ v w, v ∈ merger_nodes g → w ∈ merger_nodes g → node_key g v = node_key g w → v = w.

(** A node that is active, lies at the time index of merger [n] and
    names [n]'s identifier as its origin. *)
Definition split_from (n m : node_data) : Prop :=
  active m = true
  ∧ Timestep (traxel m) = Timestep (traxel n)
  ∧ originated_from m = Some (Id (traxel n)).

#[export] Instance split_from_dec n m : Decision (split_from n m).
Proof. unfold split_from. apply _. Defined.

(** The nodes created by a call that started from graph [g]. *)
Definition new_nodes (g g' : HypothesesGraph) : list node_data :=
  drop (length (nodes g)) (nodes g').

(** The nodes appended when the mergers [M] of [g] are expanded in
    order: one block of replacement nodes per merger. *)
Inductive expansion (g : HypothesesGraph) : list nat → list node_data → Prop :=
  | expansion_nil : expansion g [] []
  | expansion_cons v n subs M news :
      nodes g !! v = Some n →
      length subs = count n →
      Forall (λ t, Timestep t = Timestep (traxel n)) subs →
      expansion g M news →
      expansion g (v :: M) ((replacement_node (Id (traxel n)) <$> subs) ++ news).

(** What happens to an expanded merger node. *)
Definition retire (ids : list nat) (n : node_data) : node_data :=
  set_resolved_to ids (deactivate_node n).

(** How the old nodes fare: only the active flag and the resolved-to
    entry of the expanded mergers change. *)
Definition carried_over (M : list nat) (i : nat) (n n' : node_data) : Prop :=
  traxel n' = traxel n ∧ count n' = count n ∧ originated_from n' = originated_from n
  ∧ active n' = active n && bool_decide (i ∉ M)
  ∧ (i ∉ M → n' = n).

(** Lookup of a feature channel by name. *)
Fixpoint find_feature (name : string) (fs : list (string * list double))
    : option (list double) :=
  match fs with
  | [] => None
  | (k, v) :: fs' => if decide (k = name) then Some v else find_feature name fs'
  end.

(** A flat list of 2-D coordinates, two at a time. *)
Fixpoint pairs (l : list double) : list (list double) :=
  match l with
  | x :: y :: l' => [x; y] :: pairs l'
  | _ => []
  end.

(** An extractor that reads candidate centers stored with the merger;
    it fails when the feature is absent or holds a different number of
    centers. *)
Definition centers_extractor (trax : Traxel) (nMerger max_id : nat) : option (list Traxel) :=
  match find_feature "mergerCOMs" (features trax) with
  | None => None
  | Some coms =>
      let cs := pairs coms in
      if (length cs =? nMerger)%nat then
        Some (imap (λ j c, mkTraxel (max_id + 1 + j) (Timestep trax) [("com", c)]) cs)
      else None
  end.

(** The rational value of a finite coordinate. *)
Definition coordinate (x : double) : Q :=
  match x with
  | Fin q => q
  | _ => 0%Q
  end.

(** Squared Euclidean distance between two centers. *)
Definition com_distance (from to : Traxel) : Q :=
  match find_feature "com" (features from), find_feature "com" (features to) with
  | Some a, Some b =>
      Qred (foldr Qplus 0%Q
              (zip_with (λ x y, (coordinate x - coordinate y) * (coordinate x - coordinate y))%Q a b))
  | _, _ => 0%Q
  end.

(** An energy that rewards every selected arc, so that the exact
    resolver keeps as many arcs as the constraints allow. *)
Definition rewarded_cost (reward : Q) (g : HypothesesGraph) (sel : list nat) : Q :=
  (selection_cost g sel - reward * inject_Z (Z.of_nat (length sel)))%Q.

(** A graph with every attachment present. *)
Definition all_properties : gset property :=
  {[node_traxel; node_active2; arc_active; arc_distance; merger_resolved_to;
    node_originated_from]}.

(** Object X at (0,1), a merger of two objects with candidate centers
    (0,1) and (4,1), and object Y at (4,1), linked X -> merger -> Y. *)
Definition scenario : HypothesesGraph :=
  mkGraph all_properties
    [mkNode (mkTraxel 1 0 [("com", [Fin 0; Fin 1])]) true 1 None [];
     mkNode (mkTraxel 1 1 [("mergerCOMs", [Fin 0; Fin 1; Fin 4; Fin 1])]) true 2 None [];
     mkNode (mkTraxel 1 2 [("com", [Fin 4; Fin 1])]) true 1 None []]
    [mkArc 0 1 true 0; mkArc 1 2 true 0].

(** The graph a call returned. *)
Definition run_or (dflt : HypothesesGraph) (o : outcome HypothesesGraph) : HypothesesGraph :=
  match o with
  | Ok g => g
  | _ => dflt
  end.

(** The scenario resolved with the greedy resolver, and with the exact
    resolver under an energy that rewards selected arcs. *)
Definition scenario_greedy : HypothesesGraph :=
  Eval vm_compute in
    run_or scenario (resolve_mergers centers_extractor com_distance Greedy scenario).

Definition scenario_pgm : HypothesesGraph :=
  Eval vm_compute in
    run_or scenario
      (resolve_mergers centers_extractor com_distance (Pgm (rewarded_cost 100)) scenario).

(** A node without mergers or provenance. *)
Definition plain_node : node_data := mkNode (mkTraxel 1 0 []) true 1 None [].

(** Node 0 has the incoming arcs 0 (weight 1) and 1 (weight 2); arc 0
    is also an outgoing arc of node 1, next to arc 2 (weight 1/2). *)
Definition tangle : HypothesesGraph :=
  mkGraph all_properties [plain_node; plain_node; plain_node; plain_node]
    [mkArc 1 0 true 1; mkArc 2 0 true 2; mkArc 1 3 true (1 # 2)].

(** The same arcs with the first two nodes swapped, so that the source
    of arc 0 is visited before its target. *)
Definition tangle_swapped : HypothesesGraph :=
  mkGraph all_properties [plain_node; plain_node; plain_node; plain_node]
    [mkArc 0 1 true 1; mkArc 2 1 true 2; mkArc 0 3 true (1 # 2)].

(** The [n] samples of [dim] coordinates each that a flat array holds. *)
Definition samples {T U} (conv : T → U) (dim : nat) (inp : list T) (n : nat) : list (list U) :=
  (λ j : nat, conv <$> take dim (drop (j * dim) inp)) <$> seq 0 n.

(** The data columns that carry label [i], in order: the samples of
    cluster [i]. *)
Fixpoint members {T} (dcols : list (list T)) (labels : list nat) (i : nat) : list (list T) :=
  match dcols, labels with
  | d :: dcols', l :: labels' =>
      if decide (l = i) then d :: members dcols' labels' i else members dcols' labels' i
  | _, _ => []
  end.

(** The sizes of a conversion all fit in an [int]. *)
Definition sizes_fit {T U} (inp : list T) (out : Mat U) : Prop :=
  Z.of_nat (n_rows out) ≤ int_max
  ∧ Z.of_nat (n_cols out) ≤ int_max
  ∧ Z.of_nat (n_rows out * n_cols out) ≤ int_max
  ∧ Z.of_nat (length inp) ≤ int_max.

(** * Properties *)

(** ** collect_arcs *)

Lemma collect_loop_app {Arc} (arcIt res : list Arc) :
  collect_loop arcIt res = res ++ arcIt.
Proof.
  revert res. induction arcIt as [|a arcIt IH]; intros res; simpl.
  - by rewrite app_nil_r.
  - by rewrite IH, <- app_assoc.
Qed.

Lemma collect_arcs_empty {Arc} (arcIt : list Arc) : collect_arcs arcIt [] = Ok arcIt.
Proof. unfold collect_arcs; simpl. by rewrite collect_loop_app. Qed.

(** C9: [collect_arcs] returns only when its accumulator is empty on
    entry (otherwise the assertion stops it), and then the accumulator
    holds exactly the arcs the iterator yields, in iteration order. *)
Theorem collect_arcs_exact {Arc} (arcIt res : list Arc) :
  collect_arcs arcIt res =
    match res with
    | [] => Ok arcIt
    | _ :: _ => AssertionFailed
    end.
Proof.
  unfold collect_arcs. destruct res as [|a res]; simpl; [|done].
  by rewrite collect_loop_app.
Qed.

Example collect_arcs_fresh : collect_arcs [3; 1; 2]%nat [] = Ok [3; 1; 2]%nat.
Proof. reflexivity. Qed.

Example collect_arcs_prepopulated : collect_arcs [3; 1; 2]%nat [7]%nat = AssertionFailed.
Proof. reflexivity. Qed.

(** ** Construction of MergerResolver *)

Lemma has_property_add g p q :
  has_property (add g p) q = bool_decide (q = p) || has_property g q.
Proof.
  unfold has_property, add; simpl.
  destruct (decide (q = p)) as [->|Hne].
  - rewrite bool_decide_eq_true_2 by (apply elem_of_union_l, elem_of_singleton; reflexivity).
    by rewrite bool_decide_eq_true_2.
  - rewrite (bool_decide_eq_false_2 (q = p)) by done. simpl.
    apply bool_decide_ext. rewrite elem_of_union, elem_of_singleton. tauto.
Qed.

Lemma with_resolved_to_present g :
  has_property (with_resolved_to g) merger_resolved_to = true.
Proof.
  unfold with_resolved_to. destruct (has_property g merger_resolved_to) eqn:H1; [done|].
  rewrite has_property_add. by rewrite bool_decide_eq_true_2.
Qed.

Lemma with_originated_from_present g :
  has_property (with_originated_from g) node_originated_from = true.
Proof.
  unfold with_originated_from. destruct (has_property g node_originated_from) eqn:H1; [done|].
  rewrite has_property_add. by rewrite bool_decide_eq_true_2.
Qed.

Lemma with_originated_from_mono g p :
  has_property g p = true → has_property (with_originated_from g) p = true.
Proof.
  intros Hp. unfold with_originated_from. destruct (has_property g node_originated_from); [done|].
  rewrite has_property_add, Hp. apply orb_true_r.
Qed.

Ltac ctor_step :=
  repeat (simpl; rewrite ?has_property_add, ?orb_true_r, ?orb_false_l;
          match goal with
          | H : has_property ?g ?p = _ |- context [has_property ?g ?p] => rewrite H
          end).

Lemma MergerResolver_new_ok g :
  required g = true →
  MergerResolver_new the_graph g =
    (with_originated_from (with_resolved_to g), Ok (mkMergerResolver the_graph)).
Proof.
  unfold required. rewrite !andb_true_iff. intros [[H2 H3] H4].
  unfold MergerResolver_new, mbind, GraphM_bind, graph_has_property, when, graph_add,
    mret, GraphM_ret, throw, with_originated_from, with_resolved_to.
  destruct (has_property g merger_resolved_to) eqn:H1; ctor_step; simpl.
  - by destruct (has_property g node_originated_from).
  - rewrite ?has_property_add; simpl.
    by destruct (has_property g node_originated_from).
Qed.

Lemma MergerResolver_new_throw g :
  required g = false →
  ∃ what, MergerResolver_new the_graph g = (with_resolved_to g, Throw (runtime_error what)).
Proof.
  unfold required. intros Hreq.
  unfold MergerResolver_new, mbind, GraphM_bind, graph_has_property, when, graph_add,
    mret, GraphM_ret, throw, with_resolved_to.
  destruct (has_property g merger_resolved_to) eqn:H1;
    destruct (has_property g node_active2) eqn:H2; ctor_step; simpl; eauto;
    destruct (has_property g arc_active) eqn:H3; ctor_step; simpl; eauto;
    destruct (has_property g arc_distance) eqn:H4; ctor_step; simpl; eauto; done.
Qed.

(** C4: construction throws exactly when the pointer is null or one of
    node_active2, arc_active, arc_distance is missing; the two
    provenance attachments are never required, and after a successful
    construction both are present. *)
Theorem MergerResolver_new_raises_iff (p : graph_ptr) (g : HypothesesGraph) :
  ((∃ e, (MergerResolver_new p g).2 = Throw e) ↔
     (p = null ∨ has_property g node_active2 = false ∨ has_property g arc_active = false
      ∨ has_property g arc_distance = false))
  ∧ match (MergerResolver_new p g).2 with
    | Ok r =>
        g_ r = p
        ∧ has_property (MergerResolver_new p g).1 merger_resolved_to = true
        ∧ has_property (MergerResolver_new p g).1 node_originated_from = true
    | Throw _ => True
    | _ => False
    end.
Proof.
  destruct p.
  { simpl. split; [|done]. split; eauto. }
  destruct (required g) eqn:Hreq.
  - rewrite (MergerResolver_new_ok g Hreq); simpl.
    unfold required in Hreq. rewrite !andb_true_iff in Hreq. destruct Hreq as [[H2 H3] H4].
    split.
    + split; [intros [e He]; done|]. intros [?|[?|[?|?]]]; congruence.
    + split; [done|]. split.
      * apply with_originated_from_mono, with_resolved_to_present.
      * apply with_originated_from_present.
  - destruct (MergerResolver_new_throw g Hreq) as [what ->]; simpl.
    split; [|done]. split; [|eauto].
    intros _. right. unfold required in Hreq.
    destruct (has_property g node_active2); [|by left].
    destruct (has_property g arc_active); [|by right; left].
    destruct (has_property g arc_distance); [done|by right; right].
Qed.

(** C3: constructing a resolver on a graph without attachments throws
    because node_active2 is missing, yet the graph in the store has
    gained the merger_resolved_to attachment. *)
Theorem MergerResolver_new_partial_state :
  has_property bare_graph merger_resolved_to = false
  ∧ (MergerResolver_new the_graph bare_graph).2
    = Throw (runtime_error "HypothesesGraph g_ does not have property node_active2!")
  ∧ has_property (MergerResolver_new the_graph bare_graph).1 merger_resolved_to = true
  ∧ (MergerResolver_new the_graph bare_graph).1 ≠ bare_graph.
Proof.
  split; [by vm_compute|]. split; [by vm_compute|]. split; [by vm_compute|].
  intros Heq.
  assert (Hp : has_property (MergerResolver_new the_graph bare_graph).1 merger_resolved_to
               = has_property bare_graph merger_resolved_to) by (by rewrite Heq).
  by vm_compute in Hp.
Qed.

(** Whenever a required attachment is missing, the store afterwards is
    the graph with merger_resolved_to added if it was absent. *)
Lemma MergerResolver_new_failure_state g :
  required g = false →
  (MergerResolver_new the_graph g).1 = with_resolved_to g.
Proof. intros Hreq. by destruct (MergerResolver_new_throw g Hreq) as [what ->]. Qed.

(** ** Machine integers *)

Lemma to_int_range z : int_min ≤ to_int z ≤ int_max.
Proof.
  unfold to_int, int_min, int_max.
  pose proof (Z.mod_pos_bound (z + 2 ^ 31) (2 ^ 32) ltac:(lia)). lia.
Qed.

Lemma to_int_small z : fits_int z → to_int z = z.
Proof.
  unfold fits_int, int_min, int_max, to_int. intros Hz.
  rewrite Z.mod_small; lia.
Qed.

(** ** feature_array_to_arma_mat *)

Section feature_array_to_arma_mat_facts.
Context {T U : Type} (conv : T → U).

Lemma copy_columns_throw todo inp stepSize count srcIt out e :
  copy_columns conv todo inp stepSize count srcIt out = Throw e → e = logic_error.
Proof.
  revert count srcIt out. induction todo as [|todo IH]; intros count srcIt out; simpl; [done|].
  repeat case_match; try done; try congruence; apply IH.
Qed.

End feature_array_to_arma_mat_facts.

Lemma accumulate_throw_is_logic_error {T} `{Elem T} dcols labelIt clusterSize
    (centers : Mat T) e :
  accumulate dcols labelIt clusterSize centers = Throw e → e = logic_error.
Proof.
  revert labelIt clusterSize centers.
  induction dcols as [|d dcols IH]; intros labelIt clusterSize centers; simpl; [done|].
  repeat case_match; try done; try congruence; try apply IH.
Qed.

Lemma normalize_no_throw {T} `{Elem T} idx clusterSize (centers : Mat T) e :
  normalize idx clusterSize centers ≠ Throw e.
Proof.
  revert centers. induction idx as [|i idx IH]; intros centers; simpl; [done|].
  repeat case_match; try done; apply IH.
Qed.

Lemma get_centers_throw {T} `{Elem T} (data : Mat T) labels centers k e :
  get_centers data labels centers k = Throw e → e = length_error ∨ e = logic_error.
Proof.
  unfold get_centers. case_match; [intros [= <-]; by left|].
  destruct (accumulate _ _ _ _) as [[cs c]|e'|c| |] eqn:Hacc; try done.
  - intros He. by apply normalize_no_throw in He.
  - intros [= ->]. right. by eapply accumulate_throw_is_logic_error.
Qed.

(** ** get_centers: which indices it uses *)

Section get_centers_bounds.
Context {T : Type} `{Elem T}.

Lemma n_cols_set_col (m : Mat T) j c : n_cols (set_col m j c) = n_cols m.
Proof. unfold n_cols, set_col; simpl. apply length_insert. Qed.

Lemma n_cols_zeros (m : Mat T) : n_cols (zeros m) = n_cols m.
Proof. unfold n_cols, zeros; simpl. apply length_fmap. Qed.



Lemma length_col_add (a b : list T) : length a = length b → length (col_add a b) = length a.
Proof. intros Hab. unfold col_add. rewrite length_zip_with. lia. Qed.


Lemma accumulate_ok_inv dcols labelIt clusterSize (centers : Mat T) clusterSize' centers' :
  accumulate dcols labelIt clusterSize centers = Ok (clusterSize', centers') →
  (length dcols ≤ length labelIt)%nat
  ∧ Forall (λ l, (l < length clusterSize)%nat) (take (length dcols) labelIt)
  ∧ length clusterSize' = length clusterSize
  ∧ n_cols centers' = n_cols centers.
Proof.
  revert labelIt clusterSize centers.
  induction dcols as [|d dcols IH]; intros labelIt clusterSize centers; simpl.
  - intros [= <- <-]. repeat split; [lia|constructor].
  - destruct labelIt as [|l labelIt]; [done|].
    destruct (clusterSize !! l) as [s|] eqn:Hs; [|done].
    destruct (cols centers !! l) as [c|] eqn:Hc; [|done].
    destruct (length c =? length d)%nat; simpl; [|done].
    intros Hacc. apply IH in Hacc as (Hlen & Hall & Hcs & Hcols).
    rewrite length_insert in Hall, Hcs. rewrite n_cols_set_col in Hcols.
    simpl. repeat split; [lia| |done|done].
    constructor; [|done]. by eapply lookup_lt_Some.
Qed.


Lemma normalize_ok_inv idx clusterSize (centers : Mat T) m :
  normalize idx clusterSize centers = Ok m →
  Forall (λ i, (i < n_cols centers)%nat) idx.
Proof.
  revert centers. induction idx as [|i idx IH]; intros centers; simpl; [constructor|].
  destruct (clusterSize !! i) as [s|]; [|done].
  destruct (cols centers !! i) as [c|] eqn:Hc; [|done].
  intros Hn. apply IH in Hn. rewrite n_cols_set_col in Hn.
  constructor; [|done]. by eapply lookup_lt_Some.
Qed.





End get_centers_bounds.

(** ** get_centers: one cluster *)

Section get_centers_mean.
Context {T : Type} `{Elem T}.

Lemma foldl_col_add_length (dcols : list (list T)) col :
  Forall (λ d, length d = length col) dcols →
  length (foldl col_add col dcols) = length col.
Proof.
  revert col. induction dcols as [|d dcols IH]; intros col Hall; simpl; [done|].
  apply Forall_cons in Hall as [Hd Hall].
  rewrite IH; rewrite length_col_add by done; [done|].
  eapply Forall_impl; [exact Hall|]. by intros d' ->.
Qed.

(** Summing columns sums every coordinate along its row. *)
Lemma foldl_col_add_lookup (dcols : list (list T)) col i x :
  col !! i = Some x →
  Forall (λ d, length d = length col) dcols →
  foldl col_add col dcols !! i
    = Some (foldl e_add x ((λ c : list T, default e_zero (c !! i)) <$> dcols)).
Proof.
  revert col x. induction dcols as [|d dcols IH]; intros col x Hx Hall; simpl; [done|].
  apply Forall_cons in Hall as [Hd Hall].
  assert (Hi : (i < length d)%nat) by (rewrite Hd; by eapply lookup_lt_Some).
  destruct (lookup_lt_is_Some_2 d i Hi) as [y Hy].
  rewrite Hy; simpl. apply IH.
  - unfold col_add. rewrite lookup_zip_with, Hx, Hy. done.
  - eapply Forall_impl; [exact Hall|]. intros d' Hd'; simpl in *.
    by rewrite length_col_add.
Qed.

Lemma accumulate_single r (dcols : list (list T)) labelIt (c0 : nat) col :
  Forall (λ d, length d = length col) dcols →
  (length dcols ≤ length labelIt)%nat →
  Forall (λ l, (l < 1)%nat) (take (length dcols) labelIt) →
  Z.of_nat c0 + Z.of_nat (length dcols) ≤ int_max →
  accumulate dcols labelIt [Z.of_nat c0] (mkMat r [col])
    = Ok ([Z.of_nat (c0 + length dcols)], mkMat r [foldl col_add col dcols]).
Proof.
  revert labelIt c0 col.
  induction dcols as [|d dcols IH]; intros labelIt c0 col Hall Hlen Hlab Hmax; simpl.
  { by rewrite Nat.add_0_r. }
  apply Forall_cons in Hall as [Hd Hall].
  destruct labelIt as [|l labelIt]; simpl in *; [lia|].
  apply Forall_cons in Hlab as [Hl Hlab].
  assert (l = 0%nat) as -> by lia. simpl.
  rewrite Hd, Nat.eqb_refl; simpl.
  rewrite to_int_small by (unfold fits_int, int_min, int_max in *; lia).
  unfold set_col; simpl.
  replace (Z.of_nat c0 + 1) with (Z.of_nat (S c0)) by lia.
  rewrite IH; [do 3 f_equal; lia| |lia|done|lia].
  eapply Forall_impl; [exact Hall|]. intros d' Hd'; simpl in *.
  by rewrite length_col_add.
Qed.

(** One cluster, the centers matrix given by its single column. *)
Lemma get_centers_one_cluster (data : Mat T) (labels : list nat) (c : list T) :
  Mat_wf data → length c = n_rows data →
  Z.of_nat (n_cols data) ≤ int_max →
  labels_in_range (n_cols data) labels 1 →
  get_centers data labels (mkMat (n_rows data) [c]) 1
  = Ok (mkMat (n_rows data) [mean_column data]).
Proof.
  intros Hdata Hc Hmax [Hlen Hlab].
  unfold get_centers, zeros; simpl.
  set (zcol := (λ _ : T, e_zero) <$> c).
  assert (Hz : length zcol = n_rows data) by (unfold zcol; by rewrite length_fmap).
  assert (Hall : Forall (λ d, length d = length zcol) (cols data)).
  { eapply Forall_impl; [exact Hdata|]. intros d Hd; simpl in *. congruence. }
  change [0] with [Z.of_nat 0].
  rewrite (accumulate_single _ _ labels 0 zcol Hall); [| |  |]; simpl.
  - unfold set_col; simpl. do 3 f_equal.
    apply list_eq. intros i. unfold col_div, mean_column.
    rewrite !list_lookup_fmap.
    destruct (decide (i < n_rows data)%nat) as [Hi|Hi].
    + rewrite lookup_seq_lt by done. simpl.
      assert (Hzi : zcol !! i = Some e_zero).
      { unfold zcol. rewrite list_lookup_fmap.
        destruct (lookup_lt_is_Some_2 c i ltac:(lia)) as [y ->]. done. }
      rewrite (foldl_col_add_lookup _ _ _ _ Hzi Hall). simpl.
      unfold arithmetic_mean, row. by rewrite length_fmap.
    + rewrite lookup_seq_ge by lia. simpl.
      rewrite lookup_ge_None_2; [done|].
      rewrite foldl_col_add_length by done. lia.
  - exact Hlen.
  - eapply Forall_impl; [exact Hlab|]. intros l Hl; simpl in Hl. lia.
  - unfold n_cols in Hmax. lia.
Qed.

(** C6: with a single cluster (every label is 0) [get_centers] returns
    one center, whose coordinates are the arithmetic means of the
    samples' coordinates. *)
Theorem get_centers_single_cluster_mean (data : Mat T) (labels : list nat) (centers : Mat T) :
  Mat_wf data → Mat_wf centers →
  n_rows centers = n_rows data → n_cols centers = 1%nat →
  Z.of_nat (n_cols data) ≤ int_max →
  labels_in_range (n_cols data) labels 1 →
  get_centers data labels centers 1 = Ok (mkMat (n_rows data) [mean_column data]).
Proof.
  intros Hdata Hcenters Hrows Hcols Hmax Hlabels.
  destruct centers as [r ccols]. unfold n_cols in Hcols; simpl in *. subst r.
  destruct ccols as [|c [|? ?]]; try done.
  apply Forall_cons in Hcenters as [Hc _]; simpl in Hc.
  by apply get_centers_one_cluster.
Qed.
End get_centers_mean.

(** ** get_centers: clusters without points *)

Section get_centers_empty.
Context {T : Type} `{Elem T}.


Lemma normalize_untouched idx clusterSize (centers : Mat T) m i :
  normalize idx clusterSize centers = Ok m →
  i ∉ idx →
  cols m !! i = cols centers !! i.
Proof.
  revert centers. induction idx as [|j idx IH]; intros centers; simpl.
  - by intros [= <-].
  - destruct (clusterSize !! j) as [s|]; [|done].
    destruct (cols centers !! j) as [c|] eqn:Hc; [|done].
    intros Hn Hi. apply not_elem_of_cons in Hi as [Hne Hi].
    rewrite (IH _ Hn Hi). unfold set_col; simpl.
    by rewrite list_lookup_insert_ne.
Qed.

Lemma normalize_divides idx clusterSize (centers : Mat T) m i s c :
  normalize idx clusterSize centers = Ok m →
  NoDup idx → i ∈ idx →
  clusterSize !! i = Some s → cols centers !! i = Some c →
  cols m !! i = Some (col_div c s).
Proof.
  revert centers c. induction idx as [|j idx IH]; intros centers c; simpl.
  - intros _ _ Hi. by apply elem_of_nil in Hi.
  - intros Hn Hnd Hi Hs Hc. apply NoDup_cons in Hnd as [Hj Hnd].
    destruct (decide (i = j)) as [->|Hne].
    + rewrite Hs, Hc in Hn.
      rewrite (normalize_untouched _ _ _ _ _ Hn Hj). unfold set_col; simpl.
      apply list_lookup_insert_eq. by eapply lookup_lt_Some.
    + apply elem_of_cons in Hi as [?|Hi]; [done|].
      destruct (clusterSize !! j) as [s'|]; [|done].
      destruct (cols centers !! j) as [c'|] eqn:Hc'; [|done].
      apply (IH _ c Hn Hnd Hi Hs). unfold set_col; simpl.
      by rewrite list_lookup_insert_ne.
Qed.

End get_centers_empty.



(** ** Concrete runs *)

Example get_centers_two_clusters :
  get_centers four_samples [0; 0; 1; 1]%nat (mkMat 2 [[NaN; NaN]; [NaN; NaN]]) 2
  = Ok (mkMat 2 [[Fin 0; Fin 1]; [Fin 4; Fin 1]]).
Proof. by vm_compute. Qed.

Example mean_column_four_samples : mean_column four_samples = [Fin 2; Fin 1].
Proof. by vm_compute. Qed.

Lemma get_centers_single_cluster_mean_witness :
  get_centers four_samples [0; 0; 0; 0]%nat (mkMat 2 [[NaN; NaN]]) 1
  = Ok (mkMat (n_rows four_samples) [mean_column four_samples]).
Proof.
  apply (get_centers_single_cluster_mean four_samples [0; 0; 0; 0]%nat (mkMat 2 [[NaN; NaN]])).
  - repeat constructor.
  - repeat constructor.
  - reflexivity.
  - reflexivity.
  - by vm_compute.
  - split; [unfold n_cols; simpl; lia|]. unfold n_cols; simpl. repeat constructor; lia.
Defined.



(** C8: an input of 2^32 elements and a 1 x 0 matrix differ in size,
    yet the size test narrows the input size to the [int] 0, finds it
    equal to 1 * 0, and the call returns without throwing. *)
Theorem feature_array_to_arma_mat_wraps :
  length (replicate (Z.to_nat 4294967296) (Fin 0))
    ≠ (n_rows (mkMat (T := double) 1 []) * n_cols (mkMat (T := double) 1 []))%nat
  ∧ feature_array_to_arma_mat id (replicate (Z.to_nat 4294967296) (Fin 0)) (mkMat 1 [])
    = Ok (mkMat 1 []).
Proof.
  set (big := Z.to_nat 4294967296).
  assert (Hbig : Z.of_nat big = 4294967296) by (unfold big; apply Z2Nat.id; lia).
  clearbody big. split.
  - rewrite length_replicate. unfold n_cols; simpl. lia.
  - unfold feature_array_to_arma_mat. rewrite length_replicate, Hbig. reflexivity.
Qed.

(** ** Lists: updates and filters *)

Section list_facts.
Context {A : Type}.

Lemma foldl_alter_length (f : A → A) (l : list A) (ids : list nat) :
  length (foldl (λ (l : list A) (i : nat), alter f i l) l ids) = length l.
Proof.
  revert l. induction ids as [|j ids IH]; intros l; simpl; [done|].
  by rewrite IH, length_alter.
Qed.

Lemma foldl_alter_lookup (f : A → A) (l : list A) (ids : list nat) (i : nat) :
  (∀ x, f (f x) = f x) →
  foldl (λ (l : list A) (i : nat), alter f i l) l ids !! i
    = if decide (i ∈ ids) then f <$> l !! i else l !! i.
Proof.
  intros Hf. revert l. induction ids as [|j ids IH]; intros l; simpl; [done|].
  rewrite IH. destruct (decide (i = j)) as [->|Hne].
  - rewrite list_lookup_alter_eq. rewrite (decide_True (P := j ∈ j :: ids)) by left.
    case_decide; [|done]. destruct (l !! j); simpl; by rewrite ?Hf.
  - rewrite list_lookup_alter_ne by done.
    apply decide_ext. rewrite elem_of_cons. tauto.
Qed.

Lemma filter_ext_in (P Q : A → Prop) `{!∀ x, Decision (P x), !∀ x, Decision (Q x)}
    (l : list A) :
  (∀ x, x ∈ l → P x ↔ Q x) → filter P l = filter Q l.
Proof.
  induction l as [|a l IH]; intros Hext; [done|].
  rewrite !filter_cons.
  rewrite IH by (intros x Hx; apply Hext; by right).
  apply decide_ext, Hext. by left.
Qed.

Lemma filter_eq_absent `{!EqDecision A} (l : list A) (x : A) :
  x ∉ l → filter (λ y, y = x) l = [].
Proof.
  induction l as [|a l IH]; intros Hx; [done|].
  apply not_elem_of_cons in Hx as [Hne Hx].
  rewrite filter_cons_False by congruence. by apply IH.
Qed.

Lemma filter_eq_NoDup `{!EqDecision A} (l : list A) (x : A) :
  NoDup l → x ∈ l → filter (λ y, y = x) l = [x].
Proof.
  induction l as [|a l IH]; intros Hnd Hx; [by apply elem_of_nil in Hx|].
  apply NoDup_cons in Hnd as [Ha Hnd].
  destruct (decide (a = x)) as [->|Hne].
  - rewrite filter_cons_True by done. f_equal. by apply filter_eq_absent.
  - rewrite filter_cons_False by done.
    apply IH; [done|]. apply elem_of_cons in Hx as [?|?]; [congruence|done].
Qed.

Lemma NoDup_all_equal_length (l : list A) :
  NoDup l → (∀ x y, x ∈ l → y ∈ l → x = y) → (length l ≤ 1)%nat.
Proof.
  intros Hnd Heq. destruct l as [|a [|b l]]; simpl; [lia|lia|].
  exfalso. apply NoDup_cons in Hnd as [Ha _]. apply Ha.
  rewrite (Heq a b); [left|left|right; left].
Qed.

Lemma NoDup_fmap_eq {B} (f : A → B) (l : list A) x y :
  NoDup (f <$> l) → x ∈ l → y ∈ l → f x = f y → x = y.
Proof.
  induction l as [|a l IH]; intros Hnd Hx Hy Hf; [by apply elem_of_nil in Hx|].
  rewrite fmap_cons in Hnd. apply NoDup_cons in Hnd as [Ha Hnd].
  apply elem_of_cons in Hx as [->|Hx]; apply elem_of_cons in Hy as [->|Hy]; try done.
  - exfalso. apply Ha. rewrite Hf. by apply list_elem_of_fmap_2.
  - exfalso. apply Ha. rewrite <- Hf. by apply list_elem_of_fmap_2.
  - by apply IH.
Qed.
End list_facts.

(** ** Selection of the cheapest element *)

Section argmin_facts.
Context {A : Type} (cost : A → Q).

Lemma argmin_in best rest : argmin cost best rest ∈ best :: rest.
Proof.
  revert best. induction rest as [|x rest IH]; intros best; simpl; [left|].
  destruct (Qle_bool (cost best) (cost x)).
  - specialize (IH best). apply elem_of_cons in IH as [->|IH]; [left|right; by right].
  - right. apply IH.
Qed.

Lemma argmin_le_best best rest : (cost (argmin cost best rest) <= cost best)%Q.
Proof.
  revert best. induction rest as [|x rest IH]; intros best; simpl; [apply Qle_refl|].
  destruct (Qle_bool (cost best) (cost x)) eqn:Hle; [apply IH|].
  eapply Qle_trans; [apply IH|].
  apply Qlt_le_weak, Qnot_le_lt. intros Hc. apply Qle_bool_iff in Hc. congruence.
Qed.

Lemma argmin_le best rest x :
  x ∈ best :: rest → (cost (argmin cost best rest) <= cost x)%Q.
Proof.
  revert best. induction rest as [|y rest IH]; intros best Hx; simpl.
  - apply list_elem_of_singleton in Hx as ->. apply Qle_refl.
  - destruct (Qle_bool (cost best) (cost y)) eqn:Hle.
    + apply elem_of_cons in Hx as [->|Hx]; [apply argmin_le_best|].
      apply elem_of_cons in Hx as [->|Hx].
      * eapply Qle_trans; [apply argmin_le_best|]. by apply Qle_bool_iff.
      * apply IH. by right.
    + apply elem_of_cons in Hx as [->|Hx]; [|by apply IH].
      eapply Qle_trans; [apply argmin_le_best|].
      apply Qlt_le_weak, Qnot_le_lt. intros Hc. apply Qle_bool_iff in Hc. congruence.
Qed.

(** The chosen element is the first one of least cost: everything
    before it is strictly more expensive. *)
Lemma argmin_first best rest :
  ∃ pre post,
    best :: rest = pre ++ argmin cost best rest :: post
    ∧ ∀ x, x ∈ pre → (cost (argmin cost best rest) < cost x)%Q.
Proof.
  revert best. induction rest as [|y rest IH]; intros best; simpl.
  { exists [], []. split; [done|]. intros x Hx. by apply elem_of_nil in Hx. }
  destruct (Qle_bool (cost best) (cost y)) eqn:Hle.
  - destruct (IH best) as (pre & post & Heq & Hpre).
    destruct pre as [|b pre]; simpl in Heq.
    + injection Heq as Hb Hrest. exists [], (y :: post). split.
      * simpl. by rewrite <- Hb, Hrest.
      * intros x Hx. by apply elem_of_nil in Hx.
    + injection Heq as -> Hrest. exists (b :: y :: pre), post. split.
      * simpl. by rewrite <- Hrest.
      * intros x Hx. apply elem_of_cons in Hx as [->|Hx]; [apply Hpre; left|].
        apply elem_of_cons in Hx as [->|Hx]; [|apply Hpre; by right].
        eapply Qlt_le_trans; [apply (Hpre b); left|]. by apply Qle_bool_iff.
  - destruct (IH y) as (pre & post & Heq & Hpre).
    exists (best :: pre), post. split.
    + simpl. by rewrite Heq.
    + intros x Hx. apply elem_of_cons in Hx as [->|Hx]; [|by apply Hpre].
      eapply Qle_lt_trans; [apply argmin_le_best|].
      apply Qnot_le_lt. intros Hc. apply Qle_bool_iff in Hc. congruence.
Qed.
End argmin_facts.

(** ** Deactivation *)

Lemma deactivate_arc_idemp a : deactivate_arc (deactivate_arc a) = deactivate_arc a.
Proof. done. Qed.

Lemma deactivate_arcs_lookup g ids i :
  arcs (deactivate_arcs g ids) !! i
    = if decide (i ∈ ids) then deactivate_arc <$> arcs g !! i else arcs g !! i.
Proof. unfold deactivate_arcs; simpl. apply foldl_alter_lookup, deactivate_arc_idemp. Qed.

Lemma deactivate_arcs_length g ids : length (arcs (deactivate_arcs g ids)) = length (arcs g).
Proof. unfold deactivate_arcs; simpl. apply foldl_alter_length. Qed.

Lemma deactivate_arcs_weight g ids i : weight (deactivate_arcs g ids) i = weight g i.
Proof.
  unfold weight. rewrite deactivate_arcs_lookup.
  case_decide; [|done]. by destruct (arcs g !! i).
Qed.

Lemma active_at_deactivate_arcs g ids d v i :
  active_at (deactivate_arcs g ids) d v i = active_at g d v i && bool_decide (i ∉ ids).
Proof.
  unfold active_at. rewrite deactivate_arcs_lookup.
  destruct (decide (i ∈ ids)) as [Hin|Hout].
  - rewrite (bool_decide_eq_false_2 (i ∉ ids)) by tauto.
    destruct (arcs g !! i); simpl; [|done]. by rewrite andb_false_r.
  - rewrite (bool_decide_eq_true_2 (i ∉ ids)) by done. by rewrite andb_true_r.
Qed.

Lemma active_arcs_deactivate_arcs g ids d v :
  active_arcs (deactivate_arcs g ids) d v = filter (λ i, i ∉ ids) (active_arcs g d v).
Proof.
  unfold active_arcs, arc_ids. rewrite deactivate_arcs_length, list_filter_filter.
  apply list_filter_iff. intros i.
  rewrite active_at_deactivate_arcs, andb_true_iff, bool_decide_eq_true. tauto.
Qed.

Lemma active_arcs_NoDup g d v : NoDup (active_arcs g d v).
Proof. apply NoDup_filter, NoDup_seq. Qed.

Lemma active_arcs_elem g d v i : i ∈ active_arcs g d v ↔ active_at g d v i = true.
Proof.
  unfold active_arcs, arc_ids. rewrite list_elem_of_filter, elem_of_seq.
  split; [tauto|]. intros Hi. split; [done|].
  unfold active_at in Hi. destruct (arcs g !! i) eqn:Ha; [|done].
  apply lookup_lt_Some in Ha. lia.
Qed.

(** ** The greedy step *)

Lemma resolve_direction_nodes d g v : nodes (resolve_direction d g v) = nodes g.
Proof. unfold resolve_direction. by repeat case_match. Qed.

Lemma resolve_direction_weight d g v i : weight (resolve_direction d g v) i = weight g i.
Proof.
  unfold resolve_direction. repeat case_match; try done. apply deactivate_arcs_weight.
Qed.

(** A step only deactivates: the active arcs of any node and direction
    afterwards are among those before. *)
Lemma resolve_direction_shrinks d g v d' v' :
  (length (active_arcs (resolve_direction d g v) d' v') ≤ length (active_arcs g d' v'))%nat.
Proof.
  unfold resolve_direction. repeat case_match; try done.
  rewrite active_arcs_deactivate_arcs. apply length_filter.
Qed.

Lemma resolve_direction_kept d g v first second rest :
  active_arcs g d v = first :: second :: rest →
  active_arcs (resolve_direction d g v) d v = [argmin (weight g) first (second :: rest)].
Proof.
  intros HL. unfold resolve_direction. rewrite HL.
  rewrite active_arcs_deactivate_arcs, HL.
  set (L := first :: second :: rest). set (kept := argmin (weight g) first (second :: rest)).
  assert (Hin : kept ∈ L) by apply argmin_in.
  assert (Hnd : NoDup L) by (unfold L; rewrite <- HL; apply active_arcs_NoDup).
  rewrite <- (filter_eq_NoDup L kept Hnd Hin).
  apply filter_ext_in. intros i Hi. rewrite list_elem_of_filter.
  destruct (decide (i = kept)); tauto.
Qed.

Lemma resolve_direction_at_most_one d g v :
  (length (active_arcs (resolve_direction d g v) d v) ≤ 1)%nat.
Proof.
  destruct (active_arcs g d v) as [|first [|second rest]] eqn:HL.
  - unfold resolve_direction. rewrite HL, HL. simpl. lia.
  - unfold resolve_direction. rewrite HL, HL. simpl. lia.
  - by rewrite (resolve_direction_kept _ _ _ _ _ _ HL).
Qed.

(** C5: when the greedy resolver treats a node that has more than one
    active arc in a direction, exactly one of those arcs stays active:
    the first one, in arc creation order, of minimum weight.  All other
    arcs of that node and direction are deactivated, and no other arc of
    the graph is touched. *)
Theorem resolve_direction_keeps_minimum (d : direction) (g : HypothesesGraph) (v : nat) :
  (2 ≤ length (active_arcs g d v))%nat →
  ∃ kept pre post,
    active_arcs g d v = pre ++ kept :: post
    ∧ active_arcs (resolve_direction d g v) d v = [kept]
    ∧ (∀ i, i ∈ active_arcs g d v → (weight g kept <= weight g i)%Q)
    ∧ (∀ i, i ∈ pre → (weight g kept < weight g i)%Q)
    ∧ (∀ i, i ∈ active_arcs g d v → i ≠ kept →
         is_active <$> arcs (resolve_direction d g v) !! i = Some false)
    ∧ (∀ i, i ∉ active_arcs g d v → arcs (resolve_direction d g v) !! i = arcs g !! i)
    ∧ (∀ i, weight (resolve_direction d g v) i = weight g i).
Proof.
  intros Hlen.
  destruct (active_arcs g d v) as [|first [|second rest]] eqn:HL; simpl in Hlen; [lia|lia|].
  destruct (argmin_first (weight g) first (second :: rest)) as (pre & post & Heq & Hpre).
  exists (argmin (weight g) first (second :: rest)), pre, post.
  split; [done|]. split; [by apply resolve_direction_kept|].
  split; [intros i Hi; by apply argmin_le|]. split; [done|].
  split; [|split; [|apply resolve_direction_weight]].
  - intros i Hi Hne. unfold resolve_direction. rewrite HL.
    rewrite deactivate_arcs_lookup.
    rewrite decide_True by (apply list_elem_of_filter; done).
    assert (Hact : active_at g d v i = true) by (apply active_arcs_elem; by rewrite HL).
    unfold active_at in Hact. by destruct (arcs g !! i).
  - intros i Hi. unfold resolve_direction. rewrite HL.
    rewrite deactivate_arcs_lookup.
    rewrite decide_False; [done|]. rewrite list_elem_of_filter. tauto.
Qed.

(** ** The greedy resolver over the whole graph *)

Lemma greedy_visit_shrinks g v d' v' :
  (length (active_arcs (greedy_visit g v) d' v') ≤ length (active_arcs g d' v'))%nat.
Proof.
  unfold greedy_visit.
  etrans; [apply resolve_direction_shrinks|apply resolve_direction_shrinks].
Qed.

Lemma greedy_visit_at_most_one g v d :
  (length (active_arcs (greedy_visit g v) d v) ≤ 1)%nat.
Proof.
  unfold greedy_visit. destruct d.
  - etrans; [apply resolve_direction_shrinks|apply resolve_direction_at_most_one].
  - apply resolve_direction_at_most_one.
Qed.

Lemma greedy_fold vs g :
  nodes (foldl greedy_visit g vs) = nodes g
  ∧ (∀ d v, (length (active_arcs (foldl greedy_visit g vs) d v)
              ≤ length (active_arcs g d v))%nat)
  ∧ (∀ d v, v ∈ vs → (length (active_arcs (foldl greedy_visit g vs) d v) ≤ 1)%nat).
Proof.
  revert g. induction vs as [|w vs IH]; intros g; simpl.
  { split; [done|]. split; [done|]. intros d v Hv. by apply elem_of_nil in Hv. }
  destruct (IH (greedy_visit g w)) as (Hnodes & Hshrink & Hone).
  split; [|split].
  - rewrite Hnodes. unfold greedy_visit. by rewrite !resolve_direction_nodes.
  - intros d v. etrans; [apply Hshrink|apply greedy_visit_shrinks].
  - intros d v Hv. apply elem_of_cons in Hv as [->|Hv]; [|by apply Hone].
    etrans; [apply Hshrink|apply greedy_visit_at_most_one].
Qed.

Lemma ResolveAmbiguousArcsGreedy_nodes g : nodes (ResolveAmbiguousArcsGreedy g) = nodes g.
Proof. apply (greedy_fold (node_ids g) g). Qed.

Lemma ResolveAmbiguousArcsGreedy_at_most_one g d v :
  (v < length (nodes g))%nat →
  (length (active_arcs (ResolveAmbiguousArcsGreedy g) d v) ≤ 1)%nat.
Proof.
  intros Hv. apply (greedy_fold (node_ids g) g). apply elem_of_seq. lia.
Qed.

(** ** The exact resolver *)

Lemma active_at_conclude g sel d v i :
  active_at (conclude g sel) d v i = true
  ↔ i ∈ sel ∧ endpoint d <$> arcs g !! i = Some v.
Proof.
  unfold active_at, conclude; simpl. rewrite list_lookup_imap.
  destruct (arcs g !! i) as [a|]; simpl.
  - rewrite andb_true_iff, !bool_decide_eq_true.
    destruct d; simpl; split; intros [? ?]; split; congruence.
  - split; [done|]. by intros [_ ?].
Qed.

Lemma infer_max_one_arc energy g : max_one_arc g (infer energy (formulate g)).
Proof.
  unfold infer. destruct (formulate g) as [|sel others] eqn:Hmodel.
  - split; constructor.
  - pose proof (argmin_in energy sel others) as Hin.
    rewrite <- Hmodel in Hin. unfold formulate in Hin.
    apply list_elem_of_filter in Hin. tauto.
Qed.

Lemma max_one_arc_at_most_one g sel d v :
  max_one_arc g sel → (length (active_arcs (conclude g sel) d v) ≤ 1)%nat.
Proof.
  intros [Hin Hout]. apply NoDup_all_equal_length; [apply active_arcs_NoDup|].
  intros i j Hi Hj.
  apply active_arcs_elem, active_at_conclude in Hi as [Hi Hiv].
  apply active_arcs_elem, active_at_conclude in Hj as [Hj Hjv].
  destruct d.
  - apply (NoDup_fmap_eq _ sel i j Hin Hi Hj). congruence.
  - apply (NoDup_fmap_eq _ sel i j Hout Hi Hj). congruence.
Qed.

Lemma ResolveAmbiguousArcsPgm_at_most_one energy g d v :
  (length (active_arcs (ResolveAmbiguousArcsPgm energy g) d v) ≤ 1)%nat.
Proof. apply max_one_arc_at_most_one, infer_max_one_arc. Qed.

Lemma resolve_ambiguous_arcs_nodes r g : nodes (resolve_ambiguous_arcs r g) = nodes g.
Proof. destruct r; [apply ResolveAmbiguousArcsGreedy_nodes|done]. Qed.

(** C1: in every graph returned by [resolve_mergers], with the greedy
    or with the exact resolver, every node has at most one active
    incoming arc and at most one active outgoing arc. *)
Theorem resolve_mergers_max_one_arc
    (extractor : Traxel → nat → nat → option (list Traxel))
    (distance_of : Traxel → Traxel → Q)
    (r : ResolveAmbiguousArcsBase) (g g' : HypothesesGraph) :
  resolve_mergers extractor distance_of r g = Ok g' →
  ∀ v, (v < length (nodes g'))%nat →
    (length (active_arcs g' Incoming v) ≤ 1)%nat
    ∧ (length (active_arcs g' Outgoing v) ≤ 1)%nat.
Proof.
  unfold resolve_mergers.
  destruct (refine_all extractor distance_of g (merger_nodes g)) as [g1| | | |]; try done.
  simpl. intros [= <-] v Hv. rewrite resolve_ambiguous_arcs_nodes in Hv.
  destruct r; simpl.
  - split; by apply ResolveAmbiguousArcsGreedy_at_most_one.
  - split; apply ResolveAmbiguousArcsPgm_at_most_one.
Qed.

(** ** Expansion of merger nodes *)

Section resolve_facts.
Context (extractor : Traxel → nat → nat → option (list Traxel)).
Context (distance_of : Traxel → Traxel → Q).

Lemma add_arcs_for_replacement_node_nodes g node trax src dest :
  nodes (add_arcs_for_replacement_node distance_of g node trax src dest) = nodes g.
Proof.
  unfold add_arcs_for_replacement_node.
  assert (Hstep : ∀ (f : HypothesesGraph → nat → HypothesesGraph) l g0,
            (∀ g1 a, nodes (f g1 a) = nodes g1) → nodes (foldl f g0 l) = nodes g0).
  { intros f l. induction l as [|a l IH]; intros g0 Hf; simpl; [done|].
    by rewrite IH, Hf. }
  rewrite Hstep; [rewrite Hstep; [done|]|]; intros g1 a; by destruct (arcs g1 !! a).
Qed.

Lemma expand_nodes from src dest subs g :
  nodes (foldl (λ g t,
           add_arcs_for_replacement_node distance_of (add_node g (replacement_node from t))
             (length (nodes g)) t src dest) g subs)
  = nodes g ++ (replacement_node from <$> subs).
Proof.
  revert g. induction subs as [|t subs IH]; intros g; simpl.
  - by rewrite app_nil_r.
  - rewrite IH, add_arcs_for_replacement_node_nodes. simpl. by rewrite <- app_assoc.
Qed.

Lemma refine_node_nodes g v k g' :
  refine_node extractor distance_of g v k = Ok g' →
  ∃ n subs,
    nodes g !! v = Some n
    ∧ extractor (traxel n) k (get_max_id g (Timestep (traxel n))) = Some subs
    ∧ nodes g' = alter (retire (Id <$> subs)) v (nodes g)
                 ++ (replacement_node (Id (traxel n)) <$> subs).
Proof.
  unfold refine_node. destruct (nodes g !! v) as [n|] eqn:Hn; [|done].
  rewrite !collect_arcs_empty. simpl.
  destruct (extractor _ _ _) as [subs|] eqn:Hext; [|done].
  intros [= <-]. exists n, subs. split; [done|]. split; [done|]. simpl.
  rewrite expand_nodes.
  assert (Hv : (v < length (nodes g))%nat) by (by eapply lookup_lt_Some).
  rewrite !alter_app_l by (rewrite ?length_alter; done).
  f_equal. apply list_eq. intros i.
  destruct (decide (i = v)) as [->|Hne].
  - rewrite !list_lookup_alter_eq. by destruct (nodes g !! v).
  - by rewrite !list_lookup_alter_ne.
Qed.

Lemma expansion_ext g1 g M news :
  (∀ w n, w ∈ M → nodes g1 !! w = Some n →
     ∃ n0, nodes g !! w = Some n0 ∧ traxel n0 = traxel n ∧ count n0 = count n) →
  expansion g1 M news → expansion g M news.
Proof.
  intros Hext Hexp. induction Hexp as [|v n subs M news Hv Hlen Hts Hexp IH].
  - constructor.
  - destruct (Hext v n) as (n0 & Hn0 & Htr & Hcnt); [left|done|].
    rewrite <- Htr. constructor; [done|congruence|by rewrite Htr|].
    apply IH. intros w n' Hw. apply Hext. by right.
Qed.

Lemma refine_all_nodes M g g' :
  extractor_contract extractor →
  Forall (λ v, (v < length (nodes g))%nat) M →
  refine_all extractor distance_of g M = Ok g' →
  ∃ old news,
    nodes g' = old ++ news
    ∧ length old = length (nodes g)
    ∧ (∀ i n, nodes g !! i = Some n → ∃ n', old !! i = Some n' ∧ carried_over M i n n')
    ∧ expansion g M news.
Proof.
  intros Hcontract. revert g.
  induction M as [|v M IH]; intros g HM; simpl.
  { intros [= <-]. exists (nodes g), []. rewrite app_nil_r.
    split; [done|]. split; [done|]. split; [|constructor].
    intros i n Hn. exists n. split; [done|]. unfold carried_over.
    rewrite bool_decide_eq_true_2 by apply not_elem_of_nil.
    by rewrite andb_true_r. }
  apply Forall_cons in HM as [Hv HM].
  destruct (nodes g !! v) as [n|] eqn:Hn; [|done].
  destruct (refine_node extractor distance_of g v (count n)) as [g1| | | |] eqn:Hrn; try done.
  simpl. intros Hall.
  apply refine_node_nodes in Hrn as (n_ & subs & Hn_ & Hext & Hnodes1).
  rewrite Hn in Hn_. injection Hn_ as <-.
  destruct (Hcontract _ _ _ _ Hext) as [Hlen Hts].
  set (block := replacement_node (Id (traxel n)) <$> subs) in *.
  set (old0 := alter (retire (Id <$> subs)) v (nodes g)) in *.
  assert (Hold0 : length old0 = length (nodes g)) by (unfold old0; apply length_alter).
  destruct (IH g1) as (old1 & news1 & Hg' & Hlen1 & Hrel1 & Hexp1); [|done|].
  { rewrite Hnodes1, length_app, Hold0.
    eapply Forall_impl; [exact HM|]. intros w Hw; simpl in Hw. lia. }
  rewrite Hnodes1, length_app, Hold0 in Hlen1.
  assert (Hblock : drop (length (nodes g)) old1 = block).
  { apply list_eq. intros j. rewrite lookup_drop.
    destruct (block !! j) as [nn|] eqn:Hj.
    - destruct (Hrel1 (length (nodes g) + j)%nat nn) as (n' & Hn' & Hc).
      { rewrite Hnodes1, lookup_app_r by lia.
        rewrite Hold0. by replace (length (nodes g) + j - length (nodes g))%nat with j by lia. }
      rewrite Hn'. f_equal. apply Hc. intros Hin.
      rewrite Forall_forall in HM. apply HM in Hin. lia.
    - apply lookup_ge_None in Hj. apply lookup_ge_None. lia. }
  exists (take (length (nodes g)) old1), (block ++ news1).
  split; [|split; [|split]].
  - rewrite Hg', app_assoc. f_equal. by rewrite <- Hblock, take_drop.
  - rewrite length_take. lia.
  - intros i n0 Hn0.
    assert (Hi : (i < length (nodes g))%nat) by (by eapply lookup_lt_Some).
    rewrite lookup_take_lt by done.
    destruct (decide (i = v)) as [->|Hne].
    + rewrite Hn in Hn0. injection Hn0 as <-.
      destruct (Hrel1 v (retire (Id <$> subs) n)) as (n' & Hn' & Hc).
      { rewrite Hnodes1, lookup_app_l by lia.
        unfold old0. by rewrite list_lookup_alter_eq, Hn. }
      exists n'. split; [done|].
      destruct Hc as (Htr & Hcnt & Hor & Hact & Hsame).
      unfold carried_over. simpl in *.
      rewrite Htr, Hcnt, Hor, Hact.
      repeat split; try done.
      * rewrite (bool_decide_eq_false_2 (v ∉ v :: M)); [by rewrite andb_false_r|].
        intros Hnot. apply Hnot. left.
      * intros Hnot. exfalso. apply Hnot. left.
    + destruct (Hrel1 i n0) as (n' & Hn' & Hc).
      { rewrite Hnodes1, lookup_app_l by lia.
        unfold old0. by rewrite list_lookup_alter_ne. }
      exists n'. split; [done|].
      destruct Hc as (Htr & Hcnt & Hor & Hact & Hsame).
      unfold carried_over. repeat split; try done.
      * rewrite Hact. f_equal. apply bool_decide_ext.
        rewrite not_elem_of_cons. split; [by intros ?|by intros [_ ?]].
      * intros Hnot. apply Hsame. apply not_elem_of_cons in Hnot. tauto.
  - constructor; [done|done|done|].
    apply (expansion_ext g1); [|done].
    intros w n1 Hw Hn1. rewrite Forall_forall in HM. specialize (HM w Hw).
    rewrite Hnodes1, lookup_app_l in Hn1 by lia. unfold old0 in Hn1.
    destruct (decide (w = v)) as [->|Hne].
    + rewrite list_lookup_alter_eq, Hn in Hn1. injection Hn1 as <-. by exists n.
    + rewrite list_lookup_alter_ne in Hn1 by done. by exists n1.
Qed.
End resolve_facts.

(** ** Counting the replacement nodes *)

Lemma expansion_fresh g M news :
  expansion g M news → Forall (λ m, count m = 1%nat ∧ active m = true) news.
Proof.
  induction 1 as [|v n subs M news Hv Hlen Hts Hexp IH]; [constructor|].
  apply Forall_app. split; [|done].
  apply Forall_fmap, Forall_forall. by intros t _.
Qed.

Lemma split_from_block_all n from subs :
  Forall (λ t, Timestep t = Timestep (traxel n)) subs →
  from = Id (traxel n) →
  filter (split_from n) (replacement_node from <$> subs) = replacement_node from <$> subs.
Proof.
  intros Hts ->. induction Hts as [|t subs Ht Hts IH]; [done|].
  rewrite fmap_cons, filter_cons_True; [by rewrite IH|].
  unfold split_from; simpl. done.
Qed.

Lemma split_from_block_none n nw subs :
  Forall (λ t, Timestep t = Timestep (traxel nw)) subs →
  ¬ (Timestep (traxel nw) = Timestep (traxel n) ∧ Id (traxel nw) = Id (traxel n)) →
  filter (split_from n) (replacement_node (Id (traxel nw)) <$> subs) = [].
Proof.
  intros Hts Hne. induction Hts as [|t subs Ht Hts IH]; [done|].
  rewrite fmap_cons, filter_cons_False; [done|].
  unfold split_from; simpl. intros (_ & Ht' & Hid). apply Hne.
  split; [congruence|]. by injection Hid.
Qed.

Lemma expansion_no_match g M news n :
  expansion g M news →
  (∀ w nw, w ∈ M → nodes g !! w = Some nw →
     ¬ (Timestep (traxel nw) = Timestep (traxel n) ∧ Id (traxel nw) = Id (traxel n))) →
  filter (split_from n) news = [].
Proof.
  induction 1 as [|w nw subs M news Hw Hlen Hts Hexp IH]; intros Hne; [done|].
  rewrite filter_app, IH, app_nil_r.
  - apply split_from_block_none; [done|]. apply (Hne w); [left|done].
  - intros w' nw' Hw'. apply Hne. by right.
Qed.

Lemma expansion_match g M news v n :
  expansion g M news →
  NoDup M → v ∈ M → nodes g !! v = Some n →
  (∀ w, w ∈ M → node_key g w = node_key g v → w = v) →
  length (filter (split_from n) news) = count n.
Proof.
  induction 1 as [|w nw subs M news Hw Hlen Hts Hexp IH]; intros Hnd Hv Hn Hkey.
  { by apply elem_of_nil in Hv. }
  apply NoDup_cons in Hnd as [HwM Hnd]. rewrite filter_app, length_app.
  destruct (decide (w = v)) as [->|Hne].
  - rewrite Hn in Hw. injection Hw as <-.
    rewrite split_from_block_all by done. rewrite length_fmap, Hlen.
    rewrite (expansion_no_match g M news n Hexp); [simpl; lia|].
    intros w' nw' Hw' Hnw' [Hts' Hid'].
    assert (w' = v); [|congruence].
    apply Hkey; [by right|]. unfold node_key. rewrite Hnw', Hn. simpl. congruence.
  - apply elem_of_cons in Hv as [?|Hv]; [congruence|].
    rewrite split_from_block_none; [simpl; apply IH; try done|done|].
    + intros w' Hw'. apply Hkey. by right.
    + intros [Hts' Hid']. apply Hne. apply Hkey; [left|].
      unfold node_key. rewrite Hw, Hn. simpl. congruence.
Qed.

Lemma merger_nodes_elem g v :
  v ∈ merger_nodes g ↔ is_merger g v = true.
Proof.
  unfold merger_nodes, node_ids. rewrite list_elem_of_filter, elem_of_seq.
  split; [tauto|]. intros Hm. split; [done|].
  unfold is_merger in Hm. destruct (nodes g !! v) eqn:Hv; [|done].
  apply lookup_lt_Some in Hv. lia.
Qed.

(** C2: after a call of [resolve_mergers] that returns, every node that
    was an active merger with count k ≥ 2 is inactive, and among the
    nodes created by the call exactly k are active, lie at the merger's
    time index and name the merger's identifier as their origin; each of
    them has merger count 1. *)
Theorem resolve_mergers_splits
    (extractor : Traxel → nat → nat → option (list Traxel))
    (distance_of : Traxel → Traxel → Q)
    (r : ResolveAmbiguousArcsBase) (g g' : HypothesesGraph) :
  extractor_contract extractor →
  unique_merger_ids g →
  resolve_mergers extractor distance_of r g = Ok g' →
  ∀ v n, nodes g !! v = Some n → active n = true → (2 ≤ count n)%nat →
    active <$> nodes g' !! v = Some false
    ∧ length (filter (split_from n) (new_nodes g g')) = count n
    ∧ Forall (λ m, count m = 1%nat) (filter (split_from n) (new_nodes g g')).
Proof.
  intros Hcontract Hunique. unfold resolve_mergers.
  destruct (refine_all extractor distance_of g (merger_nodes g)) as [g1| | | |] eqn:Hall;
    try done.
  simpl. intros [= <-] v n Hn Hact Hcnt.
  apply refine_all_nodes in Hall as (old & news & Hnodes & Hlen & Hrel & Hexp); [|done|].
  2:{ apply Forall_forall. intros w Hw. apply merger_nodes_elem in Hw.
      unfold is_merger in Hw. destruct (nodes g !! w) eqn:Hw'; [|done].
      by eapply lookup_lt_Some. }
  assert (Hv : v ∈ merger_nodes g).
  { apply merger_nodes_elem. unfold is_merger. rewrite Hn, Hact.
    rewrite andb_true_l. by apply Nat.leb_le. }
  unfold new_nodes. rewrite resolve_ambiguous_arcs_nodes, Hnodes.
  rewrite <- Hlen, drop_app_length.
  split; [|split].
  - destruct (Hrel v n Hn) as (n' & Hn' & Hc).
    rewrite lookup_app_l by (rewrite Hlen; by eapply lookup_lt_Some).
    rewrite Hn'. simpl. f_equal.
    destruct Hc as (_ & _ & _ & -> & _).
    rewrite (bool_decide_eq_false_2 (v ∉ merger_nodes g)) by tauto.
    apply andb_false_r.
  - apply (expansion_match g (merger_nodes g) news v n); try done.
    + apply NoDup_filter, NoDup_seq.
    + intros w Hw Hkey. by apply Hunique.
  - apply Forall_forall. intros m Hm. apply list_elem_of_filter in Hm as [_ Hm].
    pose proof (expansion_fresh _ _ _ Hexp) as Hfresh.
    rewrite Forall_forall in Hfresh. by apply Hfresh.
Qed.

(** ** A worked scenario *)

Example scenario_greedy_nodes :
  nodes scenario_greedy =
    [mkNode (mkTraxel 1 0 [("com", [Fin 0; Fin 1])]) true 1 None [];
     mkNode (mkTraxel 1 1 [("mergerCOMs", [Fin 0; Fin 1; Fin 4; Fin 1])]) false 2 None [2; 3]%nat;
     mkNode (mkTraxel 1 2 [("com", [Fin 4; Fin 1])]) true 1 None [];
     mkNode (mkTraxel 2 1 [("com", [Fin 0; Fin 1])]) true 1 (Some 1%nat) [];
     mkNode (mkTraxel 3 1 [("com", [Fin 4; Fin 1])]) true 1 (Some 1%nat) []].
Proof. reflexivity. Qed.

Example scenario_greedy_arcs :
  arcs scenario_greedy =
    [mkArc 0 1 false 0; mkArc 1 2 false 0;
     mkArc 0 3 true 0; mkArc 3 2 false 16; mkArc 0 4 false 16; mkArc 4 2 true 0].
Proof. reflexivity. Qed.

Example scenario_pgm_arcs : arcs scenario_pgm = arcs scenario_greedy.
Proof. reflexivity. Qed.

Lemma centers_extractor_contract : extractor_contract centers_extractor.
Proof.
  intros trax nMerger max_id subs. unfold centers_extractor.
  destruct (find_feature _ _) as [coms|]; [|done].
  destruct (Nat.eqb_spec (length (pairs coms)) nMerger) as [Hlen|]; [|done].
  intros [= <-]. split; [by rewrite length_imap|].
  apply Forall_forall. intros t Ht.
  apply elem_of_lookup_imap_1 in Ht as (j & c & -> & _). done.
Qed.

Lemma scenario_unique_merger_ids : unique_merger_ids scenario.
Proof.
  intros v w Hv Hw _.
  assert (Hm : merger_nodes scenario = [1%nat]) by reflexivity.
  rewrite Hm in Hv, Hw.
  apply list_elem_of_singleton in Hv, Hw. congruence.
Qed.

Lemma resolve_mergers_max_one_arc_witness :
  (length (active_arcs scenario_greedy Incoming 2) ≤ 1)%nat
  ∧ (length (active_arcs scenario_greedy Outgoing 2) ≤ 1)%nat.
Proof.
  apply (resolve_mergers_max_one_arc centers_extractor com_distance Greedy
           scenario scenario_greedy).
  - reflexivity.
  - simpl. lia.
Defined.

Lemma resolve_mergers_splits_witness :
  active <$> nodes scenario_greedy !! 1%nat = Some false
  ∧ length (filter (split_from (mkNode (mkTraxel 1 1 [("mergerCOMs", [Fin 0; Fin 1; Fin 4; Fin 1])])
                                  true 2 None []))
              (new_nodes scenario scenario_greedy)) = 2%nat
  ∧ Forall (λ m, count m = 1%nat)
      (filter (split_from (mkNode (mkTraxel 1 1 [("mergerCOMs", [Fin 0; Fin 1; Fin 4; Fin 1])])
                             true 2 None []))
         (new_nodes scenario scenario_greedy)).
Proof.
  apply (resolve_mergers_splits centers_extractor com_distance Greedy scenario scenario_greedy
           centers_extractor_contract scenario_unique_merger_ids).
  - reflexivity.
  - reflexivity.
  - reflexivity.
  - simpl. lia.
Defined.

Lemma resolve_direction_keeps_minimum_witness :
  ∃ kept pre post,
    active_arcs tangle Incoming 0 = pre ++ kept :: post
    ∧ active_arcs (resolve_direction Incoming tangle 0) Incoming 0 = [kept]
    ∧ (∀ i, i ∈ active_arcs tangle Incoming 0 → (weight tangle kept <= weight tangle i)%Q)
    ∧ (∀ i, i ∈ pre → (weight tangle kept < weight tangle i)%Q)
    ∧ (∀ i, i ∈ active_arcs tangle Incoming 0 → i ≠ kept →
         is_active <$> arcs (resolve_direction Incoming tangle 0) !! i = Some false)
    ∧ (∀ i, i ∉ active_arcs tangle Incoming 0 →
         arcs (resolve_direction Incoming tangle 0) !! i = arcs tangle !! i)
    ∧ (∀ i, weight (resolve_direction Incoming tangle 0) i = weight tangle i).
Proof.
  apply (resolve_direction_keeps_minimum Incoming tangle 0).
  vm_compute. lia.
Defined.

Example tangle_step :
  active_arcs (resolve_direction Incoming tangle 0) Incoming 0 = [0%nat].
Proof. reflexivity. Qed.

(** C5, read over a whole run: node 0 starts with the two active
    incoming arcs 0 and 1.  The resolver keeps arc 0 for node 0, and
    later drops it at node 1, whose cheapest outgoing arc is arc 2: in
    the end node 0 has no active incoming arc left. *)
Lemma greedy_run_keeps_none :
  active_arcs tangle Incoming 0 = [0; 1]%nat
  ∧ active_arcs (ResolveAmbiguousArcsGreedy tangle) Incoming 0 = [].
Proof. split; reflexivity. Qed.

(** With the two nodes visited in the other order, the arc that
    survives at node 1 is the heavier one. *)
Example greedy_run_keeps_heavier :
  active_arcs tangle_swapped Incoming 1 = [0; 1]%nat
  ∧ active_arcs (ResolveAmbiguousArcsGreedy tangle_swapped) Incoming 1 = [1%nat]
  ∧ (weight tangle_swapped 0 < weight tangle_swapped 1)%Q.
Proof. split; [reflexivity|]. split; reflexivity. Qed.

(** ** get_centers returns on well-formed input *)

Section get_centers_returns.
Context {T : Type} `{Elem T}.


End get_centers_returns.



(** ** feature_array_to_arma_mat on matching sizes *)

Section feature_array_to_arma_mat_returns.
Context {T U : Type} (conv : T → U).

Lemma copy_columns_ok todo inp r count (out : Mat U) :
  (count + todo ≤ n_cols out)%nat →
  ((count + todo) * r ≤ length inp)%nat →
  n_rows out = r →
  copy_columns conv todo inp (Z.of_nat r) count (count * r) out
  = Ok (mkMat r (take count (cols out)
                 ++ ((λ j : nat, conv <$> take r (drop (j * r) inp)) <$> seq count todo)
                 ++ drop (count + todo) (cols out))).
Proof.
  revert count out. induction todo as [|todo IH]; intros count out Hcols Hlen Hrows; simpl.
  { destruct out as [r' cs]; simpl in *. subst r'.
    by rewrite Nat.add_0_r, take_drop. }
  destruct (Z.ltb_spec (Z.of_nat r) 0) as [?|_]; [lia|].
  rewrite Nat2Z.id.
  destruct (Nat.leb_spec (count * r + r) (length inp)) as [_|?]; [|lia]. simpl.
  set (col := conv <$> take r (drop (count * r) inp)).
  assert (Hcol : length col = r).
  { unfold col. rewrite length_fmap, length_take_le; [done|]. rewrite length_drop. lia. }
  destruct (Nat.ltb_spec count (n_cols out)) as [Hcount|?]; [|lia]. simpl.
  rewrite Hcol, Hrows, Nat.eqb_refl. simpl.
  replace (count * r + r)%nat with (S count * r)%nat by lia.
  rewrite IH; [|rewrite n_cols_set_col; lia|lia|done].
  f_equal. f_equal. unfold set_col; simpl. unfold n_cols in Hcount.
  rewrite (take_S_r _ _ col) by (by apply list_lookup_insert_eq).
  rewrite take_insert_ge by lia.
  rewrite drop_insert_lt by lia.
  rewrite <- app_assoc. simpl.
  by replace (count + S todo)%nat with (S (count + todo)) by lia.
Qed.

Lemma feature_array_to_arma_mat_ok inp (out : Mat U) :
  Z.of_nat (n_rows out) ≤ int_max →
  Z.of_nat (n_cols out) ≤ int_max →
  Z.of_nat (length inp) ≤ int_max →
  length inp = (n_rows out * n_cols out)%nat →
  feature_array_to_arma_mat conv inp out
  = Ok (mkMat (n_rows out) (samples conv (n_rows out) inp (n_cols out))).
Proof.
  intros Hr Hc Hl Hsize. unfold feature_array_to_arma_mat.
  assert (Hfit : ∀ n : nat, Z.of_nat n ≤ int_max → to_int (Z.of_nat n) = Z.of_nat n).
  { intros n Hn. apply to_int_small. unfold fits_int, int_min, int_max in *. lia. }
  rewrite !Hfit by done. rewrite <- Nat2Z.inj_mul, <- Hsize.
  destruct (Z.leb_spec int_min (Z.of_nat (length inp))) as [_|?];
    [|unfold int_min in *; lia].
  destruct (Z.leb_spec (Z.of_nat (length inp)) int_max) as [_|?]; [|lia].
  rewrite Z.eqb_refl. simpl.
  rewrite Nat2Z.id.
  pose proof (copy_columns_ok (n_cols out) inp (n_rows out) 0 out) as Hcopy.
  change (0 * n_rows out)%nat with 0%nat in Hcopy.
  rewrite Hcopy; [|lia|lia|done].
  simpl. unfold n_cols. by rewrite drop_all, app_nil_r.
Qed.
End feature_array_to_arma_mat_returns.

(** With one cluster, [KMeans] returns the mean of the samples. *)
Lemma KMeans_single_cluster_mean (Cluster : Mat double → Z → list nat) (dim n : nat)
    (data_ : list double) :
  (0 < dim)%nat → (0 < n)%nat →
  length data_ = (dim * n)%nat →
  Z.of_nat (length data_) ≤ int_max →
  labels_in_range n (Cluster (mkMat dim (samples id dim data_ n)) 1) 1 →
  KMeans Cluster dim 1 data_ = Ok (mean_column (mkMat dim (samples id dim data_ n))).
Proof.
  intros Hdim Hn Hlen Hmax Hlabels. unfold KMeans.
  assert (Hdiv : (length data_ / dim)%nat = n).
  { rewrite Hlen, Nat.mul_comm. apply Nat.div_mul. lia. }
  rewrite Hdiv.
  set (out := mkMat dim (replicate n (replicate dim (e_zero (T := double))))).
  assert (Hout : n_cols out = n) by (unfold n_cols, out; simpl; apply length_replicate).
  assert (Hconv : feature_array_to_arma_mat id data_ out
                  = Ok (mkMat dim (samples id dim data_ n))).
  { rewrite feature_array_to_arma_mat_ok; rewrite ?Hout; simpl; [done|nia|nia|done|done]. }
  rewrite Hconv. simpl. destruct (Z.ltb_spec (Z.of_nat n) 1) as [?|_]; [lia|].
  assert (Hwf : Mat_wf (mkMat (T := double) dim (samples id dim data_ n))).
  { unfold Mat_wf, samples; simpl. apply Forall_fmap, Forall_forall.
    intros j Hj; simpl. apply elem_of_seq in Hj.
    rewrite length_fmap, length_take_le; [done|]. rewrite length_drop. nia. }
  assert (Hcols : n_cols (mkMat (T := double) dim (samples id dim data_ n)) = n).
  { unfold n_cols, samples; simpl. by rewrite length_fmap, length_seq. }
  pose proof (get_centers_one_cluster (mkMat dim (samples id dim data_ n))
                (Cluster (mkMat dim (samples id dim data_ n)) 1) (replicate dim e_zero))
    as Hcenters.
  simpl in Hcenters. rewrite Hcenters; simpl.
  - by rewrite app_nil_r.
  - done.
  - apply length_replicate.
  - rewrite Hcols. nia.
  - by rewrite Hcols.
Qed.

(** ** resolve_mergers returns when the extractor does *)

Section resolve_returns.
Context (extractor : Traxel → nat → nat → option (list Traxel)).
Context (distance_of : Traxel → Traxel → Q).

Lemma refine_all_returns M g :
  (∀ trax nMerger max_id, is_Some (extractor trax nMerger max_id)) →
  Forall (λ v, (v < length (nodes g))%nat) M →
  ∃ g', refine_all extractor distance_of g M = Ok g'.
Proof.
  intros Htotal. revert g. induction M as [|v M IH]; intros g HM; simpl; [eauto|].
  apply Forall_cons in HM as [Hv HM].
  destruct (lookup_lt_is_Some_2 (nodes g) v Hv) as [n Hn]. rewrite Hn.
  assert (Hrn : ∃ g1, refine_node extractor distance_of g v (count n) = Ok g1).
  { unfold refine_node. rewrite Hn, !collect_arcs_empty. simpl.
    destruct (Htotal (traxel n) (count n) (get_max_id g (Timestep (traxel n)))) as [subs ->].
    eauto. }
  destruct Hrn as [g1 Hg1]. rewrite Hg1. simpl.
  apply IH. apply refine_node_nodes in Hg1 as (n' & subs & _ & _ & ->).
  rewrite length_app, length_alter.
  eapply Forall_impl; [exact HM|]. intros w Hw; simpl in Hw. lia.
Qed.

Lemma resolve_mergers_returns r g :
  (∀ trax nMerger max_id, is_Some (extractor trax nMerger max_id)) →
  ∃ g', resolve_mergers extractor distance_of r g = Ok g'.
Proof.
  intros Htotal. unfold resolve_mergers.
  destruct (refine_all_returns (merger_nodes g) g Htotal) as [g1 ->]; [|simpl; eauto].
  apply Forall_forall. intros w Hw. apply merger_nodes_elem in Hw.
  unfold is_merger in Hw. destruct (nodes g !! w) eqn:Hw'; [|done].
  by eapply lookup_lt_Some.
Qed.
End resolve_returns.


(** * Further properties of the header's functions *)

(** ** feature_array_to_arma_mat: what it returns *)

Section feature_array_to_arma_mat_result.
Context {T U : Type} (conv : T → U).

Lemma concat_samples (inp : list T) (r n : nat) :
  concat (samples conv r inp n) = conv <$> take (n * r) inp.
Proof.
  unfold samples. induction n as [|n IH]; [done|].
  rewrite seq_S, fmap_app, concat_app, IH. simpl. rewrite app_nil_r.
  rewrite <- fmap_app, take_take_drop. do 2 f_equal. lia.
Qed.

Lemma samples_wf (inp : list T) (r n : nat) :
  (n * r ≤ length inp)%nat → Mat_wf (mkMat r (samples conv r inp n)).
Proof.
  intros Hlen. unfold Mat_wf, samples; simpl. apply Forall_fmap, Forall_forall.
  intros j Hj; simpl. apply elem_of_seq in Hj.
  rewrite length_fmap, length_take_le; [done|]. rewrite length_drop. nia.
Qed.

(** X1: when the sizes fit an int and agree, the conversion returns a
    well-formed matrix of the target's dimensions whose columns, read
    one after the other, are the converted input again; the previous
    contents of the target play no role. *)
Theorem feature_array_to_arma_mat_round_trip (inp : list T) (out : Mat U) :
  sizes_fit inp out →
  length inp = (n_rows out * n_cols out)%nat →
  ∃ m, feature_array_to_arma_mat conv inp out = Ok m
       ∧ n_rows m = n_rows out
       ∧ n_cols m = n_cols out
       ∧ Mat_wf m
       ∧ concat (cols m) = conv <$> inp.
Proof.
  intros (Hr & Hc & _ & Hl) Hsize.
  exists (mkMat (n_rows out) (samples conv (n_rows out) inp (n_cols out))).
  split; [by apply feature_array_to_arma_mat_ok|]. split; [done|]. split.
  { unfold n_cols at 1, samples; simpl. by rewrite length_fmap, length_seq. }
  split.
  - apply samples_wf. lia.
  - simpl. rewrite concat_samples. by rewrite take_ge by lia.
Qed.

(** X2: for sizes that fit an int the conversion either returns, when
    the input size is rows * columns, with column [j] holding the
    [j]-th run of [n_rows] input elements, or throws its range error;
    it never reads or writes out of bounds. *)
Theorem feature_array_to_arma_mat_outcome (inp : list T) (out : Mat U) :
  sizes_fit inp out →
  feature_array_to_arma_mat conv inp out =
    if decide (length inp = (n_rows out * n_cols out)%nat)
    then Ok (mkMat (n_rows out)
               ((λ j : nat, conv <$> take (n_rows out) (drop (j * n_rows out) inp))
                  <$> seq 0 (n_cols out)))
    else Throw (range_error "Source vector dimension and matrix dimensions do not agree!").
Proof.
  intros (Hr & Hc & Hp & Hl). case_decide as Hsize.
  - by apply feature_array_to_arma_mat_ok.
  - unfold feature_array_to_arma_mat.
    rewrite !to_int_small by (unfold fits_int, int_min, int_max in *; lia).
    rewrite <- Nat2Z.inj_mul.
    destruct (Z.leb_spec int_min (Z.of_nat (n_rows out * n_cols out))) as [_|?];
      [|unfold int_min in *; lia].
    destruct (Z.leb_spec (Z.of_nat (n_rows out * n_cols out)) int_max) as [_|?]; [|lia].
    destruct (Z.eqb_spec (Z.of_nat (n_rows out * n_cols out)) (Z.of_nat (length inp)));
      [lia|done].
Qed.
End feature_array_to_arma_mat_result.

Lemma feature_array_to_arma_mat_round_trip_witness :
  ∃ m, feature_array_to_arma_mat id [Fin 1; Fin 2; Fin 3; Fin 4; Fin 5; Fin 6]
         (mkMat 3 [[NaN; NaN; NaN]; [NaN; NaN; NaN]]) = Ok m
       ∧ n_rows m = 3%nat
       ∧ n_cols m = 2%nat
       ∧ Mat_wf m
       ∧ concat (cols m) = id <$> [Fin 1; Fin 2; Fin 3; Fin 4; Fin 5; Fin 6].
Proof.
  apply (feature_array_to_arma_mat_round_trip id [Fin 1; Fin 2; Fin 3; Fin 4; Fin 5; Fin 6]
           (mkMat 3 [[NaN; NaN; NaN]; [NaN; NaN; NaN]])).
  - repeat split; by vm_compute.
  - reflexivity.
Defined.

Lemma feature_array_to_arma_mat_outcome_witness :
  feature_array_to_arma_mat id [Fin 1; Fin 2; Fin 3; Fin 4; Fin 5; Fin 6]
    (mkMat 3 [[NaN; NaN; NaN]; [NaN; NaN; NaN]])
  = Ok (mkMat 3 [[Fin 1; Fin 2; Fin 3]; [Fin 4; Fin 5; Fin 6]])
  ∧ feature_array_to_arma_mat id [Fin 1; Fin 2; Fin 3; Fin 4; Fin 5]
      (mkMat 3 [[NaN; NaN; NaN]; [NaN; NaN; NaN]])
    = Throw (range_error "Source vector dimension and matrix dimensions do not agree!").
Proof.
  split.
  - exact (feature_array_to_arma_mat_outcome id [Fin 1; Fin 2; Fin 3; Fin 4; Fin 5; Fin 6]
             (mkMat 3 [[NaN; NaN; NaN]; [NaN; NaN; NaN]])
             ltac:(repeat split; by vm_compute)).
  - exact (feature_array_to_arma_mat_outcome id [Fin 1; Fin 2; Fin 3; Fin 4; Fin 5]
             (mkMat 3 [[NaN; NaN; NaN]; [NaN; NaN; NaN]])
             ltac:(repeat split; by vm_compute)).
Defined.

(** ** get_centers: the centers it returns *)

Section get_centers_result.
Context {T : Type} `{Elem T}.

Lemma members_Forall (P : list T → Prop) dcols labels i :
  Forall P dcols → Forall P (members dcols labels i).
Proof.
  intros HP. revert labels. induction HP as [|d dcols Hd HP IH]; intros labels; [done|].
  destruct labels as [|l labels]; simpl; [constructor|].
  case_decide; [constructor; [done|]|]; apply IH.
Qed.

(** After the first loop, the counter of cluster [i] has grown by the
    number of its samples and its column by their sum. *)
Lemma accumulate_members dcols labelIt clusterSize (centers : Mat T) clusterSize' centers'
    (i a : nat) col :
  accumulate dcols labelIt clusterSize centers = Ok (clusterSize', centers') →
  clusterSize !! i = Some (Z.of_nat a) →
  cols centers !! i = Some col →
  Z.of_nat a + Z.of_nat (length dcols) ≤ int_max →
  clusterSize' !! i = Some (Z.of_nat (a + length (members dcols labelIt i)))
  ∧ cols centers' !! i = Some (foldl col_add col (members dcols labelIt i)).
Proof.
  revert labelIt clusterSize centers a col.
  induction dcols as [|d dcols IH]; intros labelIt clusterSize centers a col; simpl.
  { intros [= <- <-] Hcs Hcol _. by rewrite Nat.add_0_r. }
  destruct labelIt as [|l labelIt]; [done|].
  destruct (clusterSize !! l) as [s|] eqn:Hs; [|done].
  destruct (cols centers !! l) as [c|] eqn:Hc; [|done].
  destruct (length c =? length d)%nat; simpl; [|done].
  intros Hacc Hcs Hcol Hmax.
  destruct (decide (l = i)) as [->|Hne].
  - rewrite Hcs in Hs. injection Hs as <-. rewrite Hcol in Hc. injection Hc as <-.
    destruct (IH _ _ _ (S a) (col_add col d) Hacc) as [Hcs' Hcol'].
    + rewrite list_lookup_insert_eq by (by eapply lookup_lt_Some).
      f_equal. rewrite to_int_small by (unfold fits_int, int_min, int_max in *; lia). lia.
    + unfold set_col; simpl. apply list_lookup_insert_eq. by eapply lookup_lt_Some.
    + lia.
    + split; [|done]. rewrite Hcs'. do 2 f_equal. simpl. lia.
  - apply (IH _ _ _ a col Hacc).
    + by rewrite list_lookup_insert_ne.
    + unfold set_col; simpl. by rewrite list_lookup_insert_ne.
    + lia.
Qed.

(** A sum of columns divided by their number is their mean column. *)
Lemma col_div_sum_mean (c : list T) (r : nat) (ds : list (list T)) :
  length c = r →
  Forall (λ d, length d = r) ds →
  col_div (foldl col_add ((λ _ : T, e_zero) <$> c) ds) (Z.of_nat (length ds))
  = mean_column (mkMat r ds).
Proof.
  intros Hc Hds. set (zcol := (λ _ : T, e_zero) <$> c).
  assert (Hz : length zcol = r) by (unfold zcol; by rewrite length_fmap).
  assert (Hall : Forall (λ d, length d = length zcol) ds).
  { eapply Forall_impl; [exact Hds|]. intros d Hd; simpl in *. congruence. }
  apply list_eq. intros j. unfold col_div, mean_column. simpl.
  rewrite !list_lookup_fmap.
  destruct (decide (j < r)%nat) as [Hj|Hj].
  - rewrite lookup_seq_lt by done. simpl.
    assert (Hzj : zcol !! j = Some e_zero).
    { unfold zcol. rewrite list_lookup_fmap.
      destruct (lookup_lt_is_Some_2 c j ltac:(lia)) as [y ->]. done. }
    rewrite (foldl_col_add_lookup _ _ _ _ Hzj Hall). simpl.
    unfold arithmetic_mean, row. simpl. by rewrite length_fmap.
  - rewrite lookup_seq_ge by lia. simpl.
    rewrite lookup_ge_None_2; [done|].
    rewrite foldl_col_add_length by done. lia.
Qed.

(** X3: each center that [get_centers] returns is the mean of the
    samples that carry its label: coordinate by coordinate, their sum in
    sample order divided by their number. *)
Theorem get_centers_cluster_mean (data : Mat T) (labels : list nat) (centers m : Mat T)
    (k : Z) (i : nat) :
  Mat_wf data → Mat_wf centers → n_rows centers = n_rows data →
  Z.of_nat (n_cols data) ≤ int_max →
  get_centers data labels centers k = Ok m →
  Z.of_nat i < k →
  cols m !! i = Some (mean_column (mkMat (n_rows data) (members (cols data) labels i))).
Proof.
  intros Hdata Hcenters Hrows Hmax. unfold get_centers.
  destruct (Z.ltb_spec k 0) as [?|Hk]; [done|].
  destruct (accumulate _ _ _ _) as [[cs c']|e|c0| |] eqn:Hacc; try done.
  intros Hn Hi.
  pose proof (accumulate_ok_inv _ _ _ _ _ _ Hacc) as (_ & _ & _ & Hcols).
  rewrite n_cols_zeros in Hcols.
  pose proof (normalize_ok_inv _ _ _ _ Hn) as Hidx.
  assert (Hic : (i < n_cols centers)%nat).
  { rewrite <- Hcols. rewrite Forall_forall in Hidx. apply Hidx, elem_of_seq. lia. }
  destruct (lookup_lt_is_Some_2 (cols centers) i Hic) as [c Hc].
  destruct (accumulate_members _ _ _ _ _ _ i 0 ((λ _ : T, e_zero) <$> c) Hacc) as [Hcs Hcol].
  - apply lookup_replicate_2. lia.
  - unfold zeros; simpl. by rewrite list_lookup_fmap, Hc.
  - unfold n_cols in Hmax. lia.
  - rewrite (normalize_divides _ _ _ _ i _ _ Hn (NoDup_seq _ _)
               ltac:(apply elem_of_seq; lia) Hcs Hcol).
    f_equal. simpl. apply col_div_sum_mean.
    + rewrite <- Hrows. by eapply (Forall_lookup_1 _ _ _ _ Hcenters).
    + by apply members_Forall.
Qed.




Lemma zero_column_length (a b : list T) :
  length a = length b → (λ _ : T, e_zero) <$> a = (λ _ : T, e_zero) <$> b.
Proof.
  revert b. induction a as [|x a IH]; intros [|y b] Hab; simpl in *; try done.
  f_equal. apply IH. lia.
Qed.

(** X5: [centers] is an output only: two centers matrices of the same
    dimensions give the same result, whatever they held before. *)
Theorem get_centers_ignores_contents (data : Mat T) (labels : list nat)
    (centers centers' : Mat T) (k : Z) :
  Mat_wf centers → Mat_wf centers' →
  n_rows centers = n_rows centers' → n_cols centers = n_cols centers' →
  get_centers data labels centers k = get_centers data labels centers' k.
Proof.
  intros Hwf Hwf' Hrows Hcols.
  assert (Hz : zeros centers = zeros centers'); [|unfold get_centers; by rewrite Hz].
  unfold zeros. rewrite Hrows. f_equal.
  destruct centers as [r cs], centers' as [r' cs']. unfold Mat_wf, n_cols in *; simpl in *.
  subst r'. revert cs' Hwf' Hcols.
  induction Hwf as [|c cs Hc Hwf IH]; intros [|c' cs'] Hwf' Hcols; simpl in *; try done.
  apply Forall_cons in Hwf' as [Hc' Hwf'].
  f_equal; [apply zero_column_length; congruence|]. apply IH; [done|lia].
Qed.

End get_centers_result.


Lemma get_centers_cluster_mean_witness :
  cols (mkMat 2 [[Fin 0; Fin 1]; [Fin 4; Fin 1]]) !! 1%nat
  = Some (mean_column (mkMat (n_rows four_samples)
                         (members (cols four_samples) [0; 0; 1; 1]%nat 1))).
Proof.
  apply (get_centers_cluster_mean four_samples [0; 0; 1; 1]%nat
           (mkMat 2 [[NaN; NaN]; [NaN; NaN]]) (mkMat 2 [[Fin 0; Fin 1]; [Fin 4; Fin 1]]) 2 1).
  - repeat constructor.
  - repeat constructor.
  - reflexivity.
  - by vm_compute.
  - by vm_compute.
  - lia.
Defined.


Lemma get_centers_ignores_contents_witness :
  get_centers four_samples [0; 0; 1; 1]%nat (mkMat 2 [[NaN; NaN]; [NaN; NaN]]) 2
  = get_centers four_samples [0; 0; 1; 1]%nat (mkMat 2 [[Fin 7; Fin 7]; [PInf; Fin 1]]) 2.
Proof.
  apply (get_centers_ignores_contents four_samples [0; 0; 1; 1]%nat
           (mkMat 2 [[NaN; NaN]; [NaN; NaN]]) (mkMat 2 [[Fin 7; Fin 7]; [PInf; Fin 1]]) 2).
  - repeat constructor.
  - repeat constructor.
  - reflexivity.
  - reflexivity.
Defined.


Example get_centers_short_labels :
  get_centers four_samples [0; 0; 1]%nat (mkMat 2 [[NaN; NaN]; [NaN; NaN]]) 2
  = OutOfBounds in_labels.
Proof. by vm_compute. Qed.

(** ** Construction of MergerResolver: what it does to the graph *)

Lemma with_resolved_to_graph g :
  nodes (with_resolved_to g) = nodes g ∧ arcs (with_resolved_to g) = arcs g.
Proof. unfold with_resolved_to. by destruct (has_property g merger_resolved_to). Qed.

Lemma with_originated_from_graph g :
  nodes (with_originated_from g) = nodes g ∧ arcs (with_originated_from g) = arcs g.
Proof. unfold with_originated_from. by destruct (has_property g node_originated_from). Qed.

Lemma with_resolved_to_has g q :
  has_property (with_resolved_to g) q = bool_decide (q = merger_resolved_to) || has_property g q.
Proof.
  unfold with_resolved_to. destruct (has_property g merger_resolved_to) eqn:H1.
  - destruct (decide (q = merger_resolved_to)) as [->|Hne].
    + by rewrite H1, bool_decide_eq_true_2.
    + by rewrite bool_decide_eq_false_2.
  - apply has_property_add.
Qed.

Lemma with_originated_from_has g q :
  has_property (with_originated_from g) q
  = bool_decide (q = node_originated_from) || has_property g q.
Proof.
  unfold with_originated_from. destruct (has_property g node_originated_from) eqn:H1.
  - destruct (decide (q = node_originated_from)) as [->|Hne].
    + by rewrite H1, bool_decide_eq_true_2.
    + by rewrite bool_decide_eq_false_2.
  - apply has_property_add.
Qed.

(** The store after a construction, in every case. *)
Lemma MergerResolver_new_store p g :
  (MergerResolver_new p g).1 =
    match p with
    | null => g
    | the_graph =>
        if required g then with_originated_from (with_resolved_to g) else with_resolved_to g
    end.
Proof.
  destruct p; [done|]. destruct (required g) eqn:Hreq.
  - by rewrite (MergerResolver_new_ok g Hreq).
  - by apply MergerResolver_new_failure_state.
Qed.

(** X7: whatever its outcome, the constructor leaves nodes and arcs
    alone, removes no attachment, and adds no attachment other than
    merger_resolved_to and node_originated_from; a construction that
    throws never adds node_originated_from. *)
Theorem MergerResolver_new_only_adds (p : graph_ptr) (g : HypothesesGraph) :
  nodes (MergerResolver_new p g).1 = nodes g
  ∧ arcs (MergerResolver_new p g).1 = arcs g
  ∧ (∀ q, has_property g q = true → has_property (MergerResolver_new p g).1 q = true)
  ∧ (∀ q, has_property (MergerResolver_new p g).1 q = true →
       has_property g q = true ∨ q = merger_resolved_to ∨ q = node_originated_from)
  ∧ (is_ok (MergerResolver_new p g).2 = false →
       has_property (MergerResolver_new p g).1 node_originated_from
       = has_property g node_originated_from).
Proof.
  rewrite MergerResolver_new_store. destruct p.
  { repeat split; auto. }
  destruct (required g) eqn:Hreq.
  - destruct (with_originated_from_graph (with_resolved_to g)) as [-> ->].
    destruct (with_resolved_to_graph g) as [-> ->].
    split; [done|]. split; [done|]. split; [|split].
    + intros q Hq. rewrite with_originated_from_has, with_resolved_to_has, Hq.
      by rewrite !orb_true_r.
    + intros q. rewrite with_originated_from_has, with_resolved_to_has.
      rewrite !orb_true_iff, !bool_decide_eq_true. tauto.
    + by rewrite (MergerResolver_new_ok g Hreq).
  - destruct (with_resolved_to_graph g) as [-> ->].
    split; [done|]. split; [done|]. split; [|split].
    + intros q Hq. rewrite with_resolved_to_has, Hq. by rewrite orb_true_r.
    + intros q. rewrite with_resolved_to_has.
      rewrite !orb_true_iff, !bool_decide_eq_true. tauto.
    + intros _. rewrite with_resolved_to_has. by rewrite bool_decide_eq_false_2.
Qed.

(** X8: a second construction on the graph a successful construction
    left behind succeeds as well and changes nothing. *)
Theorem MergerResolver_new_idempotent (p : graph_ptr) (g : HypothesesGraph) :
  is_ok (MergerResolver_new p g).2 = true →
  MergerResolver_new p (MergerResolver_new p g).1 = MergerResolver_new p g.
Proof.
  destruct p; [done|]. destruct (required g) eqn:Hreq.
  2:{ by destruct (MergerResolver_new_throw g Hreq) as [what ->]. }
  intros _. rewrite (MergerResolver_new_ok g Hreq). cbn [fst].
  set (g' := with_originated_from (with_resolved_to g)).
  assert (Hreq' : required g' = true).
  { unfold required in *. rewrite !andb_true_iff in *. destruct Hreq as [[H2 H3] H4].
    unfold g'. rewrite !with_originated_from_has, !with_resolved_to_has, H2, H3, H4.
    by rewrite !orb_true_r. }
  rewrite (MergerResolver_new_ok g' Hreq'). f_equal.
  assert (H1 : has_property g' merger_resolved_to = true).
  { apply with_originated_from_mono, with_resolved_to_present. }
  assert (H5 : has_property g' node_originated_from = true).
  { apply with_originated_from_present. }
  unfold with_resolved_to at 1. rewrite H1.
  unfold with_originated_from at 1. by rewrite H5.
Qed.

Lemma MergerResolver_new_idempotent_witness :
  MergerResolver_new the_graph
    (MergerResolver_new the_graph
       (mkGraph {[node_active2; arc_active; arc_distance]} [plain_node] [])).1
  = MergerResolver_new the_graph
      (mkGraph {[node_active2; arc_active; arc_distance]} [plain_node] []).
Proof.
  apply (MergerResolver_new_idempotent the_graph
           (mkGraph {[node_active2; arc_active; arc_distance]} [plain_node] [])).
  by vm_compute.
Defined.

(** X9: on a non-null pointer the outcome depends on the three required
    attachments alone, and the error names the first one missing in the
    order node_active2, arc_active, arc_distance. *)
Theorem MergerResolver_new_outcome (g : HypothesesGraph) :
  (MergerResolver_new the_graph g).2 =
    if negb (has_property g node_active2) then
      Throw (runtime_error "HypothesesGraph g_ does not have property node_active2!")
    else if negb (has_property g arc_active) then
      Throw (runtime_error "HypothesesGraph g_ does not have property arc_active!")
    else if negb (has_property g arc_distance) then
      Throw (runtime_error "HypothesesGraph g_ does not have property arc_distance!")
    else Ok (mkMergerResolver the_graph).
Proof.
  unfold MergerResolver_new, mbind, GraphM_bind, graph_has_property, when, graph_add,
    mret, GraphM_ret, throw.
  destruct (has_property g merger_resolved_to) eqn:H1;
    destruct (has_property g node_active2) eqn:H2; ctor_step; simpl; try done;
    destruct (has_property g arc_active) eqn:H3; ctor_step; simpl; try done;
    destruct (has_property g arc_distance) eqn:H4; ctor_step; simpl; try done;
    rewrite ?has_property_add; simpl;
    by destruct (has_property g node_originated_from).
Qed.

(** ** collect_arcs: the loop *)

(** X10: the loop of [collect_arcs] only appends: started on an
    accumulator it leaves the accumulator's content in place and adds
    the iterator's arcs behind it, in order; two iterators in sequence
    are collected like their concatenation. *)
Theorem collect_loop_appends {Arc} (arcIt arcIt' res : list Arc) :
  collect_loop arcIt res = res ++ arcIt
  ∧ collect_loop (arcIt ++ arcIt') res = collect_loop arcIt' (collect_loop arcIt res).
Proof.
  split; [apply collect_loop_app|].
  by rewrite !collect_loop_app, app_assoc.
Qed.

(** ** get_centers: the labels it reads *)

Lemma accumulate_take_labels {T} `{Elem T} dcols labelIt clusterSize (centers : Mat T) :
  accumulate dcols (take (length dcols) labelIt) clusterSize centers
  = accumulate dcols labelIt clusterSize centers.
Proof.
  revert labelIt clusterSize centers.
  induction dcols as [|d dcols IH]; intros labelIt clusterSize centers; simpl; [done|].
  destruct labelIt as [|l labelIt]; simpl; [done|].
  destruct (clusterSize !! l) as [s|]; [|done].
  destruct (cols centers !! l) as [c|]; [|done].
  destruct (length c =? length d)%nat; simpl; [|done]. apply IH.
Qed.

(** X11: [get_centers] reads one label per data column and no more:
    labels beyond the number of data columns never influence the
    outcome. *)
Theorem get_centers_reads_first_labels {T} `{Elem T} (data : Mat T) (labels : list nat)
    (centers : Mat T) (k : Z) :
  get_centers data (take (n_cols data) labels) centers k = get_centers data labels centers k.
Proof. unfold get_centers, n_cols. by rewrite accumulate_take_labels. Qed.
